(** * finance_js: the financial calculators of [src/index.ts]

    A shallow embedding of the fourteen exported functions and of the
    JavaScript built-ins they rest on, followed by the properties of the
    natural-language specification.

    - A TypeScript [number] is an IEEE 754 binary64 value. It is embedded as
      Rocq's primitive [float], whose [+], [-], [*], [/] and comparisons are
      the JavaScript ones bit for bit.
    - [Number.prototype.toFixed] is written out from ECMA-262 over the exact
      value of the double.
    - [Array.prototype.sort] is stable and driven by the sign of the
      comparator.
    - [Math.pow] and the exponential notation of [Number::toString] are left
      to the platform by ECMA-262; they are parameters of the development. *)

From Stdlib Require Import ZArith List String Ascii Bool Lia.
From Stdlib Require Import DecimalString.
From Stdlib Require Import Floats.
From Stdlib Require Import Permutation Sorted RelationClasses.
Import ListNotations.

Set Warnings "-inexact-float".

Local Open Scope float_scope.

(** * Part I: the program *)

(** ** Numbers *)

Definition number : Type := float.

(** [ToNumber] of a property that may be absent: [undefined] becomes NaN. *)
Definition ToNumber (v : option number) : number :=
  match v with
  | Some x => x
  | None => nan
  end.

(** A parameter declared [p: number = d] takes [d] when the argument is not
    supplied. *)
Definition or_default (d : number) (v : option number) : number :=
  match v with
  | Some x => x
  | None => d
  end.

(** ** Number.prototype.toFixed (ECMA-262) *)

Section ToFixed.

Local Open Scope Z_scope.

(** The integer [n] for which [n / 10^f - x] is as close to zero as possible,
    the larger [n] when there are two; here [x = m * 2^e]. *)
Definition nearest_scaled (m : positive) (e : Z) (f : nat) : Z :=
  let q := Zpos m * 10 ^ Z.of_nat f in
  if 0 <=? e then q * 2 ^ e
  else (2 * q + 2 ^ (- e)) / (2 * 2 ^ (- e)).

(** [x >= 10^21], for [x = m * 2^e]. *)
Definition at_least_1e21 (m : positive) (e : Z) : bool :=
  if 0 <=? e then 10 ^ 21 <=? Zpos m * 2 ^ e
  else 10 ^ 21 * 2 ^ (- e) <=? Zpos m.

(** The decimal digits of a non-negative integer, ["0"] for zero. *)
Definition digits (n : Z) : string :=
  NilZero.string_of_uint (N.to_uint (Z.to_N n)).

Fixpoint zeros (k : nat) : string :=
  match k with
  | O => EmptyString
  | S k' => String "0" (zeros k')
  end.

(** Pad with zeros up to [f + 1] digits and put the point before the last
    [f] of them. *)
Definition place_point (m : string) (f : nat) : string :=
  match f with
  | O => m
  | S _ =>
      let k := String.length m in
      let m' := if (k <=? f)%nat then (zeros (f + 1 - k) ++ m)%string else m in
      let k' := String.length m' in
      (substring 0 (k' - f) m' ++ "." ++ substring (k' - f) f m')%string
  end.

(** The sign is kept apart from the magnitude. *)
Definition sign_prefix (s : bool) : string :=
  if s then "-"%string else EmptyString.

(** [Number::toString] of a finite double of magnitude at least [10^21]:
    exponential notation, whose last digit ECMA-262 leaves to the
    implementation. *)
Variable Number_toString : number -> string.

Definition toFixed_spec (x : spec_float) (f : nat) : string :=
  match x with
  | S754_nan => "NaN"
  | S754_infinity false => "Infinity"
  | S754_infinity true => "-Infinity"
  | S754_zero _ => place_point (digits 0) f
  | S754_finite s m e =>
      (sign_prefix s ++
       (if at_least_1e21 m e
        then Number_toString (SF2Prim (S754_finite false m e))
        else place_point (digits (nearest_scaled m e f)) f))%string
  end.

Definition toFixed (x : number) (fractionDigits : nat) : string :=
  toFixed_spec (Prim2SF x) fractionDigits.

End ToFixed.

(** ** StringToNumber (ECMA-262)

    What a string is worth where a number is expected, as when the result of
    one calculator is passed to another. It is written out for the strings
    [toFixed] prints below [10^21], an optional minus sign, decimal digits
    and a point with digits after it, and for the names of NaN and of the
    infinities; the exponential notation is not read. *)

Section StringToNumber.

Local Open Scope Z_scope.







End StringToNumber.

(** ** Array.prototype.sort (ECMA-262)

    The sort is stable, and the signs the comparator returns fix its result.
    It is written as the insertion sort that moves an element past exactly
    those it sorts after. On numeric keys no other stable sort could return
    anything else ([debtSnowball_unique] and [debtAvalanche_unique] below);
    with a comparator that is not consistent, as one that meets a NaN key
    among numeric ones, ECMA-262 leaves the order to the implementation, and
    this sort is one such implementation: what is proved below of order and
    stability is stated for numeric keys. *)

Section ArraySort.

Context {A : Type}.
Variable comparefn : A -> A -> number.

(** [SortCompare]: a NaN from the comparator counts as [+0]. *)
Definition SortCompare (x y : A) : number :=
  let v := comparefn x y in
  if is_nan v then 0 else v.

(** [x] sorts after [y]. *)
Definition sorts_after (x y : A) : bool := 0 <? SortCompare x y.

Fixpoint insert_sorted (x : A) (l : list A) : list A :=
  match l with
  | [] => [x]
  | y :: l' => if sorts_after x y then y :: insert_sorted x l' else x :: y :: l'
  end.

Fixpoint Array_sort (l : list A) : list A :=
  match l with
  | [] => []
  | x :: l' => insert_sorted x (Array_sort l')
  end.

End ArraySort.

(** ** Debt ordering ([src/index.ts], lines 16 and 26) *)

(** [{ name: string; balance: number; interestRate?: number }]. *)
Record Debt : Type := mkDebt {
  name : string;
  balance : number;
  interestRate : option number
}.

(** [(a, b) => a.balance - b.balance]. *)
Definition by_balance (a b : Debt) : number := balance a - balance b.

(** [(a, b) => b.interestRate - a.interestRate]. *)
Definition by_interestRate (a b : Debt) : number :=
  ToNumber (interestRate b) - ToNumber (interestRate a).

(** The contents of the array [debts] after the call, which are also the
    contents of the array the call returns. *)
Definition debtSnowball (debts : list Debt) : list Debt :=
  Array_sort by_balance debts.

Definition debtAvalanche (debts : list Debt) : list Debt :=
  Array_sort by_interestRate debts.

(** [debts.sort(...); return debts]: the caller's array is sorted in place
    and the very same array is returned. Arrays live in a heap and are passed
    by reference. *)
Definition ref : Type := nat.
Definition heap : Type := ref -> list Debt.

Definition store (h : heap) (r : ref) (v : list Debt) : heap :=
  fun r' => if Nat.eqb r' r then v else h r'.

Definition debtSnowball_in_place (debts : ref) (h : heap) : ref * heap :=
  (debts, store h debts (debtSnowball (h debts))).

Definition debtAvalanche_in_place (debts : ref) (h : heap) : ref * heap :=
  (debts, store h debts (debtAvalanche (h debts))).

(** ** Counted loops

    [for (let i = 0; i < n; i++) body], on a state the body updates. The
    counter and the bound are natural numbers here; [for_loop_on_doubles]
    below shows that the loop of the source, whose counter and bound are
    doubles, makes the same passes for every bound below [2^53]. [fuel]
    bounds the number of passes and [for_loop] gives it [n] of them, which
    the test [i < n] never lets the loop use up. *)
Fixpoint for_loop_from {T : Type} (fuel i n : nat) (body : T -> T) (s : T) : T :=
  match fuel with
  | O => s
  | S fuel' => if (i <? n)%nat then for_loop_from fuel' (i + 1) n body (body s) else s
  end.

Definition for_loop {T : Type} (n : nat) (body : T -> T) (s : T) : T :=
  for_loop_from n 0 n body s.

(** The same loop with a counter and a bound that are doubles; [None] when
    the fuel runs out before the test fails. *)
Fixpoint js_for_loop {T : Type} (fuel : nat) (i n : number) (body : T -> T) (s : T)
  : option T :=
  match fuel with
  | O => None
  | S fuel' => if i <? n then js_for_loop fuel' (i + 1) n body (body s) else Some s
  end.

(** The double reached by counting up to [k] from 0. *)
Fixpoint number_of_nat (k : nat) : number :=
  match k with
  | O => 0
  | S k' => number_of_nat k' + 1
  end.

(** ** The calculators *)

Definition default_inflationRate : number := 0.06.

Section Calculators.

(** The platform's [Math.pow] and [Number::toString]. *)
Variable Math_pow : number -> number -> number.
Variable Number_toString : number -> string.

(** Line 7. *)
Definition calculateDTI (totalMonthlyDebtPayments totalMonthlyIncome : number) : string :=
  toFixed Number_toString (totalMonthlyDebtPayments / totalMonthlyIncome * 100) 2.

(** Line 38. *)
Definition calculateEMI (principal annualInterestRate tenureInYears : number) : string :=
  let monthlyInterestRate := annualInterestRate / 12 / 100 in
  let totalMonths := tenureInYears * 12 in
  let emi :=
    principal * monthlyInterestRate * Math_pow (1 + monthlyInterestRate) totalMonths
    / (Math_pow (1 + monthlyInterestRate) totalMonths - 1) in
  toFixed Number_toString emi 2.

(** Line 52. *)
Definition lumpSumReturns (principalAmount durationInYears expectedRoi : number) : string :=
  let totalAmount := principalAmount * Math_pow (1 + expectedRoi) durationInYears in
  toFixed Number_toString totalAmount 2.

(** Line 66. *)
Definition lumpSumReturnsWithInflation
    (principalAmount durationInYears expectedRoi : number)
    (inflationRate : option number) : string :=
  let inflationRate := or_default default_inflationRate inflationRate in
  let totalAmount :=
    principalAmount * Math_pow (1 + expectedRoi - inflationRate) durationInYears in
  toFixed Number_toString totalAmount 2.

(** Line 78, for a whole number of periods: the passes of the loop counted
    in natural numbers. It is the reference that the loop of the source,
    [sipReturns_on_doubles] below, is compared with: the two agree for every
    [months] below [2^53]; above, the loop of the source does not end, and
    what is proved of the value returned is stated on
    [sipReturns_on_doubles]. *)
Definition sipReturns (monthlyPayment : number) (months : nat) (expectedRoi : number) : string :=
  let totalAmount :=
    for_loop months
      (fun totalAmount =>
         let totalAmount := totalAmount + monthlyPayment in
         totalAmount * (1 + expectedRoi / 12))
      0 in
  toFixed Number_toString totalAmount 2.

(** Line 78 again, with [months] and the counter [i] the doubles they are in
    the source. *)
Definition sipReturns_on_doubles
    (fuel : nat) (monthlyPayment months expectedRoi : number) : option string :=
  option_map (fun totalAmount => toFixed Number_toString totalAmount 2)
    (js_for_loop fuel 0 months
       (fun totalAmount =>
          let totalAmount := totalAmount + monthlyPayment in
          totalAmount * (1 + expectedRoi / 12))
       0).

(** Line 95, for a whole number of periods, as [sipReturns] is; the loop of
    the source is [sipReturnsWithInflation_on_doubles] below. *)
Definition sipReturnsWithInflation
    (monthlyPayment : number) (months : nat) (expectedRoi : number)
    (inflationRate : option number) : string :=
  let inflationRate := or_default default_inflationRate inflationRate in
  let totalAmount :=
    for_loop months
      (fun totalAmount =>
         let totalAmount := totalAmount + monthlyPayment in
         totalAmount * (1 + (expectedRoi - inflationRate) / 12))
      0 in
  toFixed Number_toString totalAmount 2.

(** Line 95 again, on doubles. *)
Definition sipReturnsWithInflation_on_doubles
    (fuel : nat) (monthlyPayment months expectedRoi : number)
    (inflationRate : option number) : option string :=
  let inflationRate := or_default default_inflationRate inflationRate in
  option_map (fun totalAmount => toFixed Number_toString totalAmount 2)
    (js_for_loop fuel 0 months
       (fun totalAmount =>
          let totalAmount := totalAmount + monthlyPayment in
          totalAmount * (1 + (expectedRoi - inflationRate) / 12))
       0).

(** Line 111. *)
Definition futureValueWithoutInflation
    (principalAmount durationInYears expectedRoi : number) : string :=
  let totalAmount := principalAmount * Math_pow (1 + expectedRoi) durationInYears in
  toFixed Number_toString totalAmount 2.

(** Line 124. *)
Definition futureValueWithInflation
    (principalAmount durationInYears expectedRoi : number)
    (inflationRate : option number) : string :=
  let inflationRate := or_default default_inflationRate inflationRate in
  let totalAmount :=
    principalAmount * Math_pow (1 + expectedRoi - inflationRate) durationInYears in
  toFixed Number_toString totalAmount 2.

(** Line 137. *)
Definition presentValueWithoutInflation
    (futureAmount durationInYears expectedRoi : number) : string :=
  let presentValue := futureAmount / Math_pow (1 + expectedRoi) durationInYears in
  toFixed Number_toString presentValue 2.

(** Line 150. *)
Definition presentValueWithInflation
    (futureAmount durationInYears expectedRoi : number)
    (inflationRate : option number) : string :=
  let inflationRate := or_default default_inflationRate inflationRate in
  let presentValue :=
    futureAmount / Math_pow (1 + expectedRoi - inflationRate) durationInYears in
  toFixed Number_toString presentValue 2.

(** Line 163. *)
Definition retirementSavingsGoal
    (monthlyExpenses yearsUntilRetirement annualReturnRate currentSavings : number) : string :=
  let months := yearsUntilRetirement * 12 in
  let monthlyReturnRate := annualReturnRate / 12 / 100 in
  let futureValue :=
    monthlyExpenses * ((Math_pow (1 + monthlyReturnRate) months - 1) / monthlyReturnRate)
    * (1 + monthlyReturnRate) in
  let additionalSavingsNeeded := futureValue - currentSavings in
  toFixed Number_toString additionalSavingsNeeded 2.

(** Line 178; [retirementYears] does not occur in the body. *)
Definition safeWithdrawalRate (retirementSavings retirementYears annualExpenses : number) : string :=
  let withdrawalRate := annualExpenses / retirementSavings in
  let safeWithdrawalRate := withdrawalRate * 100 in
  toFixed Number_toString safeWithdrawalRate 2.

End Calculators.

(** * Part II: what the specification speaks of *)

(** ** The formulas *)

Section Formulas.

Variable Math_pow : number -> number -> number.

(** The recurrence of the SIP family: start from 0; each period add the
    contribution, then compound it for one month. *)
Fixpoint sip_recurrence (x r : number) (k : nat) : number :=
  match k with
  | O => 0
  | S k' => (sip_recurrence x r k' + x) * (1 + r / 12)
  end.

(** The other order: compound first, deposit afterwards. *)
Fixpoint compound_then_deposit (x r : number) (k : nat) : number :=
  match k with
  | O => 0
  | S k' => compound_then_deposit x r k' * (1 + r / 12) + x
  end.

(** [amount * base^years]. *)
Definition compound (amount base years : number) : number :=
  amount * Math_pow base years.

(** [EMI = P * r * (1+r)^n / ((1+r)^n - 1)]. *)
Definition emi_formula (P r n : number) : number :=
  P * r * Math_pow (1 + r) n / (Math_pow (1 + r) n - 1).

(** [FV = pmt * ((1+r)^n - 1)/r * (1+r)], the annuity factor
    [((1+r)^n - 1)/r] being one quotient. *)
Definition annuity_due_fv (pmt r n : number) : number :=
  pmt * ((Math_pow (1 + r) n - 1) / r) * (1 + r).

End Formulas.

(** One admissible [Math.pow] on exponents that are natural numbers, by
    repeated multiplication, and NaN elsewhere; it stands for the platform
    in examples. *)
Fixpoint pow_nat (b : number) (n : nat) : number :=
  match n with
  | O => 1
  | S n' => b * pow_nat b n'
  end.

Definition natural_exponent (e : spec_float) : option nat :=
  match e with
  | S754_zero _ => Some O
  | S754_finite false m x =>
      if (0 <=? x)%Z then Some (Z.to_nat (Zpos m * 2 ^ x))
      else if (Zpos m mod 2 ^ (- x) =? 0)%Z then Some (Z.to_nat (Zpos m / 2 ^ (- x)))
      else None
  | _ => None
  end.

Definition pow_by_multiplication (b e : number) : number :=
  match natural_exponent (Prim2SF e) with
  | Some n => pow_nat b n
  | None => nan
  end.

(** [Number::toString] is not reached below [10^21]; examples that stay
    there run with this stand-in. *)
Definition no_toString (_ : number) : string := EmptyString.

(** The strings by which a division by zero shows in the output. *)
Definition not_a_finite_amount (s : string) : Prop :=
  s = "Infinity"%string \/ s = "-Infinity"%string \/ s = "NaN"%string.

(** Calling twice with identical inputs yields identical outputs. *)
Definition deterministic {A B : Type} (f : A -> B) : Prop :=
  forall x y : A, x = y -> f x = f y.

(** ** Orderings of debts *)

(** The data model gives every debt a numeric balance, and every debt that
    [debtAvalanche] receives a numeric interest rate. *)
Definition numeric_balance (d : Debt) : Prop := is_nan (balance d) = false.

Definition numeric_interestRate (d : Debt) : Prop :=
  is_nan (ToNumber (interestRate d)) = false.

Definition balance_le (a b : Debt) : Prop := (balance a <=? balance b) = true.

Definition interestRate_ge (a b : Debt) : Prop :=
  (ToNumber (interestRate b) <=? ToNumber (interestRate a)) = true.

(** Ascending by balance, descending by interest rate: every element is in
    order with every later one. *)
Definition ascending_by_balance (l : list Debt) : Prop := StronglySorted balance_le l.

Definition descending_by_interestRate (l : list Debt) : Prop :=
  StronglySorted interestRate_ge l.

(** Stability: the debts whose key equals [k] keep their input order. *)
Definition same_balance (k : number) (d : Debt) : bool := balance d =? k.

Definition same_interestRate (k : number) (d : Debt) : bool :=
  ToNumber (interestRate d) =? k.

Definition stable_on (key_is : number -> Debt -> bool) (input output : list Debt) : Prop :=
  forall k : number, filter (key_is k) output = filter (key_is k) input.

(** [a] may stand before [b]: the sort does not move it past [b]. *)
Definition in_order {A : Type} (comparefn : A -> A -> number) (a b : A) : Prop :=
  sorts_after comparefn a b = false.

(** The debts of the test suite and of the README. *)
Definition snowball_debts : list Debt :=
  [ mkDebt "Credit Card A" 5000 None;
    mkDebt "Credit Card B" 2500 None;
    mkDebt "Personal Loan" 10000 None ].

Definition avalanche_debts : list Debt :=
  [ mkDebt "Student Loan" 15000 (Some 0.06);
    mkDebt "Car Loan" 10000 (Some 0.08);
    mkDebt "Credit Card" 5000 (Some 0.18) ].

(** ** An order embedding of the doubles

    Every double but NaN is sent to an integer, [m * 2^e] to
    [m * 2^(e + 1074)] and the infinities beyond all of them, so that the
    comparisons of doubles are the comparisons of these integers. *)

Definition rank (x : spec_float) : Z :=
  match x with
  | S754_zero _ => 0
  | S754_infinity s => cond_Zopp s (2 ^ 2100)
  | S754_nan => 0
  | S754_finite s m e => cond_Zopp s (Zpos m * 2 ^ (e + 1074))
  end.

Definition is_nan_spec (x : spec_float) : bool :=
  match x with
  | S754_nan => true
  | _ => false
  end.

Definition number_rank (x : number) : option Z :=
  if is_nan x then None else Some (rank (Prim2SF x)).

(** A rounded result carries sign [s]: it is a non-zero finite number or an
    infinity of that sign. *)
Definition signed (s : bool) (r : spec_float) : Prop :=
  match r with
  | S754_finite s' _ _ | S754_infinity s' => s' = s
  | _ => False
  end.

(** The integer difference that [SFsub] rounds, both operands aligned on the
    smaller exponent. *)
Definition aligned_diff
    (sx : bool) (mx : positive) (ex : Z) (sy : bool) (my : positive) (ey : Z) : Z :=
  let ez := Z.min ex ey in
  (cond_Zopp sx (Zpos (fst (shl_align mx ex ez)))
   - cond_Zopp sy (Zpos (fst (shl_align my ey ez))))%Z.

(** Integer keys: the order they give and the ties they leave. *)
Definition le_by {A : Type} (k : A -> Z) (a b : A) : Prop := (k a <= k b)%Z.

Definition tied_with {A : Type} (k : A -> Z) (x d : A) : bool := (k d =? k x)%Z.

Definition balance_rank (d : Debt) : Z := rank (Prim2SF (balance d)).

Definition interestRate_rank (d : Debt) : Z :=
  (- rank (Prim2SF (ToNumber (interestRate d))))%Z.

(** ** Natural numbers among the doubles *)

(** The double [months] is the natural number [m]: it has the rank of
    [m]. *)
Definition is_natural_number (months : number) (m : nat) : Prop :=
  number_rank months = Some (Z.of_nat m * 2 ^ 1074)%Z.

(** ** The round trip of a future value *)




(** ** Notions of the further properties *)

(** The payments of [k] months added up one after the other. *)
Fixpoint deposits (x : number) (k : nat) : number :=
  match k with
  | O => 0
  | S k' => deposits x k' + x
  end.

(** No two debts of the list have keys that compare equal. *)
Definition distinct_balances (l : list Debt) : Prop :=
  ForallOrdPairs (fun a b => (balance a =? balance b) = false) l.

Definition distinct_interestRates (l : list Debt) : Prop :=
  ForallOrdPairs
    (fun a b => (ToNumber (interestRate a) =? ToNumber (interestRate b)) = false) l.

(** A debt whose interest rate is missing, or NaN. *)
Definition no_interestRate (d : Debt) : Prop :=
  is_nan (ToNumber (interestRate d)) = true.

(** A string that ends in a point and two more characters. *)
Definition two_decimals (s : string) : Prop :=
  exists whole cents : string,
    s = (whole ++ "." ++ cents)%string /\ String.length cents = 2%nat.

(** * Part III: the arithmetic of doubles *)

Section FloatOrder.

Local Open Scope Z_scope.

Ltac pow2_pos := apply Z.pow_pos_nonneg; lia.

Ltac compare_by_lia :=
  symmetry;
  first [ apply Z.compare_lt_iff; lia | apply Z.compare_gt_iff; lia ].

(** ** Valid mantissas and exponents *)

Lemma digits2_pos_bounds (m : positive) :
  2 ^ (Zpos (digits2_pos m) - 1) <= Zpos m < 2 ^ Zpos (digits2_pos m).
Proof.
  induction m as [m IH | m IH |]; cbn [digits2_pos];
    [rewrite Pos2Z.inj_succ .. | cbn; lia];
    replace (Z.succ (Zpos (digits2_pos m)) - 1)
      with (Z.succ (Zpos (digits2_pos m) - 1)) by lia;
    rewrite !Z.pow_succ_r by lia; lia.
Qed.

(** What validity says of a finite double [m * 2^e]. *)
Lemma bounded_inv (m : positive) (e : Z) :
  bounded prec emax m e = true ->
  -1074 <= e <= 971 /\ Zpos m < 2 ^ 53 /\ (-1074 < e -> 2 ^ 52 <= Zpos m).
Proof.
  unfold bounded, canonical_mantissa, fexp, SpecFloat.emin, prec, emax.
  rewrite andb_true_iff, Z.eqb_eq, Z.leb_le.
  intros [Hc He].
  pose proof (digits2_pos_bounds m) as [Hlo Hhi].
  set (d := Zpos (digits2_pos m)) in *.
  assert (Hd : 0 < d) by (unfold d; lia).
  repeat split; try lia.
  - apply Z.lt_le_trans with (1 := Hhi). apply Z.pow_le_mono_r; lia.
  - intros Hn. apply Z.le_trans with (2 := Hlo). apply Z.pow_le_mono_r; lia.
Qed.

Lemma rank_finite_bounds (m : positive) (e : Z) :
  bounded prec emax m e = true ->
  0 < Zpos m * 2 ^ (e + 1074) < 2 ^ 2100.
Proof.
  intros Hb. apply bounded_inv in Hb as (He & Hm & _).
  split.
  - apply Z.mul_pos_pos; [lia | pow2_pos].
  - apply Z.lt_le_trans with (2 ^ 53 * 2 ^ (e + 1074)).
    + apply Z.mul_lt_mono_pos_r; [pow2_pos | exact Hm].
    + rewrite <- Z.pow_add_r by lia. apply Z.pow_le_mono_r; lia.
Qed.

(** ** Comparisons read through the embedding *)

(** A mantissa below [2^53] at a smaller exponent is below a normal one at a
    larger exponent. *)
Lemma smaller_exponent_lt (m1 m2 : positive) (e1 e2 : Z) :
  -1074 <= e1 < e2 -> Zpos m1 < 2 ^ 53 -> 2 ^ 52 <= Zpos m2 ->
  Zpos m1 * 2 ^ (e1 + 1074) < Zpos m2 * 2 ^ (e2 + 1074).
Proof.
  intros He Hm1 Hm2.
  replace (e2 + 1074) with (e1 + 1074 + (e2 - e1)) by lia.
  rewrite (Z.pow_add_r 2 (e1 + 1074) (e2 - e1)) by lia.
  assert (Hp : 0 < 2 ^ (e1 + 1074)) by pow2_pos.
  assert (H2p : 2 ^ 1 <= 2 ^ (e2 - e1)) by (apply Z.pow_le_mono_r; lia).
  change (2 ^ 1) with 2 in H2p. change (2 ^ 53) with (2 * 2 ^ 52) in Hm1.
  remember (2 ^ 52) as K eqn:EK. remember (2 ^ (e1 + 1074)) as P eqn:EP.
  remember (2 ^ (e2 - e1)) as Q eqn:EQ. clear EK EP EQ.
  assert (Zpos m1 * P < 2 * K * P) by nia.
  assert (K * P <= Zpos m2 * P) by nia.
  assert (Zpos m2 * P * 2 <= Zpos m2 * P * Q) by nia.
  lia.
Qed.

Lemma finite_compare_pos (m1 : positive) (e1 : Z) (m2 : positive) (e2 : Z) :
  bounded prec emax m1 e1 = true -> bounded prec emax m2 e2 = true ->
  match e1 ?= e2 with
  | Lt => Lt
  | Gt => Gt
  | Eq => Pos.compare_cont Eq m1 m2
  end = (Zpos m1 * 2 ^ (e1 + 1074) ?= Zpos m2 * 2 ^ (e2 + 1074)).
Proof.
  intros H1 H2.
  apply bounded_inv in H1 as (He1 & Hm1 & Hn1).
  apply bounded_inv in H2 as (He2 & Hm2 & Hn2).
  destruct (Z.compare_spec e1 e2) as [-> | Hlt | Hgt].
  - change (Pos.compare_cont Eq m1 m2) with (Zpos m1 ?= Zpos m2). symmetry.
    assert (Hp : 0 < 2 ^ (e2 + 1074)) by pow2_pos.
    destruct (Z.compare_spec (Zpos m1) (Zpos m2)) as [Heq | Hl | Hg].
    + rewrite Heq. apply Z.compare_refl.
    + apply Z.compare_lt_iff, Z.mul_lt_mono_pos_r; assumption.
    + apply Z.compare_gt_iff, Z.mul_lt_mono_pos_r; assumption.
  - symmetry. apply Z.compare_lt_iff, smaller_exponent_lt; auto; lia.
  - symmetry. apply Z.compare_gt_iff, smaller_exponent_lt; auto; lia.
Qed.

Lemma SFcompare_rank (x y : spec_float) :
  valid_binary x = true -> valid_binary y = true ->
  is_nan_spec x = false -> is_nan_spec y = false ->
  SFcompare x y = Some (rank x ?= rank y).
Proof.
  intros Hx Hy Nx Ny.
  destruct x as [sx | sx | | sx mx ex]; try discriminate;
    destruct y as [sy | sy | | sy my ey]; try discriminate;
    cbn [SFcompare rank valid_binary] in *;
    try pose proof (rank_finite_bounds mx ex Hx);
    try pose proof (rank_finite_bounds my ey Hy);
    try destruct sx; try destruct sy; cbn [cond_Zopp]; f_equal;
    try reflexivity; try compare_by_lia.
  - rewrite Z.compare_opp, (Z.compare_antisym (Zpos mx * _)).
    rewrite <- (finite_compare_pos mx ex my ey Hx Hy).
    destruct (ex ?= ey); reflexivity.
  - apply finite_compare_pos; assumption.
Qed.

(** ** Rounding never loses the sign *)

Lemma shr_1_lower (j : Z) (mrs : shr_record) :
  0 <= j -> 2 ^ (j + 1) <= shr_m mrs -> 2 ^ j <= shr_m (shr_1 mrs).
Proof.
  intros Hj. rewrite Z.pow_add_r, Z.pow_1_r by lia.
  assert (0 < 2 ^ j) by pow2_pos.
  destruct mrs as [m r s]; cbn [shr_m shr_1].
  destruct m as [| [p | p |] | p]; cbn [shr_m]; lia.
Qed.

Lemma iter_shr_1_lower (p : positive) :
  forall (j : Z) (mrs : shr_record),
    0 <= j -> 2 ^ (j + Zpos p) <= shr_m mrs ->
    2 ^ j <= shr_m (iter_pos shr_1 p mrs).
Proof.
  induction p as [p IH | p IH |]; intros j mrs Hj Hm; cbn [iter_pos].
  - apply IH; [exact Hj |]. apply IH; [lia |]. apply shr_1_lower; [lia |].
    replace (j + Zpos p + Zpos p + 1) with (j + Zpos p~1) by lia. exact Hm.
  - apply IH; [exact Hj |]. apply IH; [lia |].
    replace (j + Zpos p + Zpos p) with (j + Zpos p~0) by lia. exact Hm.
  - apply shr_1_lower; assumption.
Qed.

Lemma shr_m_of_loc (m : Z) (l : location) : shr_m (shr_record_of_loc m l) = m.
Proof. destruct l as [| []]; reflexivity. Qed.

(** Shifting a positive mantissa into the format leaves it positive. *)
Lemma shr_fexp_pos (m e : Z) (l : location) :
  0 < m -> -1074 <= e ->
  0 < shr_m (fst (shr_fexp prec emax m e l)) /\ -1074 <= snd (shr_fexp prec emax m e l).
Proof.
  intros Hm He. unfold shr_fexp, shr.
  destruct m as [| m | m]; try lia. cbn [Zdigits2].
  pose proof (digits2_pos_bounds m) as [Hlo _].
  set (d := Zpos (digits2_pos m)) in *.
  assert (Hd : 0 < d) by (unfold d; lia).
  unfold fexp, SpecFloat.emin, prec, emax.
  destruct (Z.max (d + e - 53) (3 - 1024 - 53) - e) as [| p | p] eqn:Hn;
    cbn [fst snd]; rewrite ?shr_m_of_loc; try (split; lia).
  split; [| lia].
  apply Z.lt_le_trans with (2 ^ 0); [reflexivity |].
  apply iter_shr_1_lower; [lia |]. rewrite shr_m_of_loc.
  apply Z.le_trans with (2 := Hlo). apply Z.pow_le_mono_r; lia.
Qed.

Lemma round_nearest_even_pos (m : Z) (l : location) :
  0 < m -> 0 < round_nearest_even m l.
Proof.
  intros Hm. destruct l as [| []]; cbn [round_nearest_even]; try lia.
  destruct (Z.even m); lia.
Qed.

Lemma binary_round_aux_signed (s : bool) (m e : Z) (l : location) :
  0 < m -> -1074 <= e -> signed s (binary_round_aux prec emax s m e l).
Proof.
  intros Hm He. unfold binary_round_aux.
  pose proof (shr_fexp_pos m e l Hm He) as [H1 H2].
  destruct (shr_fexp prec emax m e l) as [mrs' e']. cbn [fst snd] in H1, H2.
  pose proof (round_nearest_even_pos _ (loc_of_shr_record mrs') H1) as H3.
  pose proof (shr_fexp_pos _ e' loc_Exact H3 H2) as [H4 _].
  destruct (shr_fexp prec emax _ e' loc_Exact) as [mrs'' e'']. cbn [fst] in H4.
  destruct (shr_m mrs'') as [| q | q]; try lia.
  destruct (e'' <=? emax - prec); reflexivity.
Qed.

Lemma binary_round_signed (s : bool) (m : positive) (e : Z) :
  -1074 <= e -> signed s (binary_round prec emax s m e).
Proof.
  intros He. unfold binary_round, shl_align.
  set (e' := fexp prec emax (Zpos (digits2_pos m) + e)).
  assert (He' : -1074 <= e') by (unfold e', fexp, SpecFloat.emin, prec, emax; lia).
  destruct (e' - e); apply binary_round_aux_signed; lia.
Qed.

Lemma binary_normalize_sign (D e : Z) :
  -1074 <= e ->
  match D with
  | Z0 => binary_normalize prec emax D e false = S754_zero false
  | Zpos _ => signed false (binary_normalize prec emax D e false)
  | Zneg _ => signed true (binary_normalize prec emax D e false)
  end.
Proof.
  intros He. destruct D; cbn [binary_normalize];
    [reflexivity | apply binary_round_signed | apply binary_round_signed]; exact He.
Qed.

Lemma signed_compare_zero (s : bool) (r : spec_float) :
  signed s r ->
  SFcompare (S754_zero false) r = Some (if s then Gt else Lt) /\
  SFcompare r (S754_zero false) = Some (if s then Lt else Gt).
Proof. destruct r; cbn; intros H; try contradiction; subst; split; reflexivity. Qed.

(** ** The sign of a difference *)

Lemma iter_xO_pow (m d : positive) : Zpos (Pos.iter xO m d) = Zpos m * 2 ^ Zpos d.
Proof.
  induction d as [| d IH] using Pos.peano_ind.
  - cbn. lia.
  - rewrite Pos.iter_succ, Pos2Z.inj_xO, IH, Pos2Z.inj_succ, Z.pow_succ_r by lia. lia.
Qed.

Lemma shl_align_fst (m : positive) (e e' : Z) :
  e' <= e -> Zpos (fst (shl_align m e e')) = Zpos m * 2 ^ (e - e').
Proof.
  intros Hle. unfold shl_align.
  destruct (e' - e) as [| d | d] eqn:Hd; cbn [fst]; try lia.
  - replace (e - e') with 0 by lia. lia.
  - rewrite iter_xO_pow. f_equal. f_equal. lia.
Qed.

Lemma aligned_diff_rank sx mx ex sy my ey :
  -1074 <= ex -> -1074 <= ey ->
  rank (S754_finite sx mx ex) - rank (S754_finite sy my ey)
  = aligned_diff sx mx ex sy my ey * 2 ^ (Z.min ex ey + 1074).
Proof.
  intros Hx Hy. unfold aligned_diff, rank.
  rewrite !shl_align_fst by lia.
  set (ez := Z.min ex ey).
  replace (ex + 1074) with (ex - ez + (ez + 1074)) by lia.
  replace (ey + 1074) with (ey - ez + (ez + 1074)) by lia.
  rewrite (Z.pow_add_r 2 (ex - ez) (ez + 1074)) by lia.
  rewrite (Z.pow_add_r 2 (ey - ez) (ez + 1074)) by lia.
  destruct sx, sy; cbn [cond_Zopp]; ring.
Qed.

Lemma SFsub_finite_compare sx mx ex sy my ey :
  bounded prec emax mx ex = true -> bounded prec emax my ey = true ->
  let x := S754_finite sx mx ex in
  let y := S754_finite sy my ey in
  SFltb (S754_zero false) (SFsub prec emax x y) = SFltb y x /\
  SFltb (SFsub prec emax x y) (S754_zero false) = SFltb x y.
Proof.
  intros Hx Hy x y.
  assert (Vx : valid_binary x = true) by exact Hx.
  assert (Vy : valid_binary y = true) by exact Hy.
  unfold SFltb.
  rewrite (SFcompare_rank y x Vy Vx eq_refl eq_refl).
  rewrite (SFcompare_rank x y Vx Vy eq_refl eq_refl).
  pose proof (bounded_inv _ _ Hx) as (Hex & _ & _).
  pose proof (bounded_inv _ _ Hy) as (Hey & _ & _).
  pose proof (aligned_diff_rank sx mx ex sy my ey ltac:(lia) ltac:(lia)) as HD.
  fold x y in HD.
  assert (Hp : 0 < 2 ^ (Z.min ex ey + 1074)) by pow2_pos.
  change (SFsub prec emax x y)
    with (binary_normalize prec emax (aligned_diff sx mx ex sy my ey) (Z.min ex ey) false).
  pose proof (binary_normalize_sign (aligned_diff sx mx ex sy my ey) (Z.min ex ey)
                ltac:(lia)) as HS.
  destruct (aligned_diff sx mx ex sy my ey) as [| D | D].
  - rewrite HS. replace (rank x) with (rank y) by lia.
    rewrite Z.compare_refl. split; reflexivity.
  - apply signed_compare_zero in HS as [-> ->].
    assert (H : rank y < rank x) by nia.
    rewrite (proj2 (Z.compare_lt_iff _ _) H), (proj2 (Z.compare_gt_iff _ _) H).
    split; reflexivity.
  - apply signed_compare_zero in HS as [-> ->].
    assert (H : rank x < rank y) by nia.
    rewrite (proj2 (Z.compare_lt_iff _ _) H), (proj2 (Z.compare_gt_iff _ _) H).
    split; reflexivity.
Qed.

Lemma SFsub_compare (x y : spec_float) :
  valid_binary x = true -> valid_binary y = true ->
  SFltb (S754_zero false) (SFsub prec emax x y) = SFltb y x /\
  SFltb (SFsub prec emax x y) (S754_zero false) = SFltb x y.
Proof.
  intros Vx Vy.
  destruct x as [sx | sx | | sx mx ex], y as [sy | sy | | sy my ey];
    try (apply SFsub_finite_compare; assumption);
    try destruct sx; try destruct sy; split; reflexivity.
Qed.

(** A difference of doubles is positive exactly when the first operand is
    the greater, and negative exactly when it is the smaller: rounding
    neither flushes a non-zero difference to zero nor flips it. *)
Theorem sub_pos (x y : float) : (0 <? x - y)%float = (y <? x)%float.
Proof.
  rewrite !ltb_spec, sub_spec.
  apply (SFsub_compare (Prim2SF x) (Prim2SF y)); apply Prim2SF_valid.
Qed.

Theorem sub_neg (x y : float) : (x - y <? 0)%float = (x <? y)%float.
Proof.
  rewrite !ltb_spec, sub_spec.
  apply (SFsub_compare (Prim2SF x) (Prim2SF y)); apply Prim2SF_valid.
Qed.

(** ** NaN, and the three comparisons *)

Lemma Prim2SF_is_nan (x : float) : is_nan_spec (Prim2SF x) = is_nan x.
Proof.
  unfold Prim2SF. destruct (is_nan x); [reflexivity |].
  destruct (is_zero x); [reflexivity |].
  destruct (is_infinity x); [reflexivity |].
  destruct (Z.frexp x) as [r e].
  destruct (shr_fexp _ _ _ _ _) as [mrs e'].
  destruct (shr_m mrs); reflexivity.
Qed.

Lemma number_rank_spec (x : float) :
  number_rank x = if is_nan_spec (Prim2SF x) then None else Some (rank (Prim2SF x)).
Proof. unfold number_rank. rewrite Prim2SF_is_nan. reflexivity. Qed.

Lemma SFcompare_number_rank (x y : float) :
  SFcompare (Prim2SF x) (Prim2SF y) =
  match number_rank x, number_rank y with
  | Some a, Some b => Some (a ?= b)
  | _, _ => None
  end.
Proof.
  rewrite !number_rank_spec.
  pose proof (Prim2SF_valid x) as Vx. pose proof (Prim2SF_valid y) as Vy.
  destruct (is_nan_spec (Prim2SF x)) eqn:Nx.
  - destruct (Prim2SF x); try discriminate. reflexivity.
  - destruct (is_nan_spec (Prim2SF y)) eqn:Ny.
    + destruct (Prim2SF y); try discriminate. destruct (Prim2SF x); reflexivity.
    + apply SFcompare_rank; assumption.
Qed.

Theorem ltb_rank (x y : float) :
  (x <? y)%float =
  match number_rank x, number_rank y with
  | Some a, Some b => a <? b
  | _, _ => false
  end.
Proof.
  rewrite ltb_spec. unfold SFltb. rewrite SFcompare_number_rank.
  destruct (number_rank x) as [a |], (number_rank y) as [b |]; reflexivity.
Qed.

Theorem leb_rank (x y : float) :
  (x <=? y)%float =
  match number_rank x, number_rank y with
  | Some a, Some b => a <=? b
  | _, _ => false
  end.
Proof.
  rewrite leb_spec. unfold SFleb. rewrite SFcompare_number_rank.
  destruct (number_rank x) as [a |], (number_rank y) as [b |]; reflexivity.
Qed.

Theorem eqb_rank (x y : float) :
  (x =? y)%float =
  match number_rank x, number_rank y with
  | Some a, Some b => a =? b
  | _, _ => false
  end.
Proof.
  rewrite eqb_spec. unfold SFeqb. rewrite SFcompare_number_rank.
  destruct (number_rank x) as [a |], (number_rank y) as [b |]; try reflexivity.
  destruct (Z.eqb_spec a b) as [-> | Hne].
  - rewrite Z.compare_refl. reflexivity.
  - destruct (Z.compare_spec a b); [contradiction | reflexivity | reflexivity].
Qed.

Lemma number_rank_numeric (x : float) :
  is_nan x = false -> number_rank x = Some (rank (Prim2SF x)).
Proof. intros H. unfold number_rank. rewrite H. reflexivity. Qed.

End FloatOrder.

(** ** Counting in doubles

    Adding 1 to a double that holds a natural number [k] is exact as long as
    [k + 1] is below [2^53], so the counter of a [for] loop holds the number
    of passes made. *)

Section ExactCounting.

Local Open Scope Z_scope.

Lemma iter_pos_nat {A : Type} (f : A -> A) (p : positive) (x : A) :
  iter_pos f p x = Nat.iter (Pos.to_nat p) f x.
Proof.
  revert x. induction p as [p IH | p IH |]; intros x; cbn [iter_pos].
  - rewrite !IH, Pos2Nat.inj_xI.
    replace (S (2 * Pos.to_nat p)) with (Pos.to_nat p + (Pos.to_nat p + 1))%nat by lia.
    rewrite !Nat.iter_add. reflexivity.
  - rewrite !IH, Pos2Nat.inj_xO.
    replace (2 * Pos.to_nat p)%nat with (Pos.to_nat p + Pos.to_nat p)%nat by lia.
    rewrite Nat.iter_add. reflexivity.
  - reflexivity.
Qed.

Lemma shr_exact_nat (k : nat) (q : positive) :
  Nat.iter k shr_1 (Build_shr_record (Zpos (Nat.iter k xO q)) false false)
  = Build_shr_record (Zpos q) false false.
Proof.
  induction k as [| k IH]; [reflexivity |].
  rewrite Nat.iter_succ_r. cbn [Nat.iter nat_rect shr_1 orb]. exact IH.
Qed.

Lemma digits_iter_xO (k : nat) (q : positive) :
  Zpos (digits2_pos (Nat.iter k xO q)) = Zpos (digits2_pos q) + Z.of_nat k.
Proof.
  induction k as [| k IH]; [cbn; lia |].
  cbn [Nat.iter nat_rect digits2_pos]. unfold Nat.iter in IH. lia.
Qed.

Lemma value_iter_xO (k : nat) (q : positive) :
  Zpos (Nat.iter k xO q) = Zpos q * 2 ^ Z.of_nat k.
Proof.
  induction k as [| k IH]; [cbn; lia |].
  cbn [Nat.iter nat_rect]. unfold Nat.iter in IH.
  rewrite Pos2Z.inj_xO, IH, Nat2Z.inj_succ, Z.pow_succ_r by lia. lia.
Qed.

(** A mantissa that sits at its exponent is left as it is. *)
Lemma binary_round_aux_canonical (m : positive) (e : Z) :
  fexp prec emax (Zpos (digits2_pos m) + e) = e -> e <= 971 ->
  binary_round_aux prec emax false (Zpos m) e loc_Exact = S754_finite false m e.
Proof.
  intros Hc He. unfold binary_round_aux, shr_fexp. cbn [Zdigits2].
  rewrite Hc, Z.sub_diag.
  cbn [shr shr_record_of_loc shr_m loc_of_shr_record round_nearest_even Zdigits2].
  rewrite Hc, Z.sub_diag. cbn [shr shr_record_of_loc shr_m].
  replace (e <=? emax - prec) with true; [reflexivity |].
  symmetry. apply Z.leb_le. unfold emax, prec. lia.
Qed.

Lemma iter_pos_shr_exact (p : positive) (k : nat) (q : positive) :
  Pos.to_nat p = k ->
  iter_pos shr_1 p (Build_shr_record (Zpos (Nat.iter k xO q)) false false)
  = Build_shr_record (Zpos q) false false.
Proof. intros <-. rewrite iter_pos_nat. apply shr_exact_nat. Qed.

(** Rounding [q * 2^k * 2^e] is exact when the format puts it at exponent
    [e + k]: the [k] bits dropped are zeros. *)
Lemma binary_normalize_exact (q : positive) (k : nat) (e : Z) :
  fexp prec emax (Zpos (digits2_pos (Nat.iter k xO q)) + e) = e + Z.of_nat k ->
  e + Z.of_nat k <= 971 ->
  binary_normalize prec emax (Zpos (Nat.iter k xO q)) e false
  = S754_finite false q (e + Z.of_nat k).
Proof.
  intros Hc He. cbn [binary_normalize]. unfold binary_round, shl_align.
  rewrite Hc. replace (e + Z.of_nat k - e) with (Z.of_nat k) by lia.
  destruct k as [| k].
  - cbn [Z.of_nat Nat.iter nat_rect] in *. rewrite Z.add_0_r in *.
    apply binary_round_aux_canonical; assumption.
  - cbn [Z.of_nat]. unfold binary_round_aux, shr_fexp. cbn [Zdigits2].
    rewrite Hc. replace (e + Z.of_nat (S k) - e) with (Zpos (Pos.of_succ_nat k)) by lia.
    cbn [shr shr_record_of_loc].
    rewrite (iter_pos_shr_exact _ (S k) q (SuccNat2Pos.id_succ k)).
    cbn [shr_m loc_of_shr_record round_nearest_even Zdigits2].
    rewrite digits_iter_xO in Hc.
    replace (e + Zpos (Pos.of_succ_nat k)) with (e + Z.of_nat (S k)) by lia.
    replace (Zpos (digits2_pos q) + (e + Z.of_nat (S k)))
      with (Zpos (digits2_pos q) + Z.of_nat (S k) + e) by lia.
    rewrite Hc, Z.sub_diag. cbn [shr shr_m].
    replace (e + Z.of_nat (S k) <=? emax - prec) with true; [reflexivity |].
    symmetry. apply Z.leb_le. unfold emax, prec. lia.
Qed.

Lemma pow2_lt_inv (a b : Z) : 0 <= b -> 2 ^ a < 2 ^ b -> a < b.
Proof. intros Hb H. apply (Z.pow_lt_mono_r_iff 2); [lia | exact Hb | exact H]. Qed.

(** The sum of [k * 2^52] and [2^52] at exponent [-52], rounded. *)
Lemma normalize_succ (S : positive) (k : Z) :
  0 <= k -> k + 1 < 2 ^ 53 -> Zpos S = (k + 1) * 2 ^ 52 ->
  exists (q : positive) (e : Z),
    binary_normalize prec emax (Zpos S) (-52) false = S754_finite false q e
    /\ Zpos q * 2 ^ (e + 1074) = (k + 1) * 2 ^ 1074.
Proof.
  intros Hk Hk1 HS.
  pose proof (digits2_pos_bounds S) as [Hlo Hhi].
  set (d := Zpos (digits2_pos S)) in *.
  assert (Hd53 : 53 <= d).
  { assert (2 ^ 52 < 2 ^ d) by nia. assert (52 < d) by (apply pow2_lt_inv; lia). lia. }
  assert (Hd105 : d <= 105).
  { assert (2 ^ (d - 1) < 2 ^ 105).
    { apply Z.le_lt_trans with (1 := Hlo). rewrite HS.
      change (2 ^ 105) with (2 ^ 53 * 2 ^ 52). nia. }
    assert (d - 1 < 105) by (apply pow2_lt_inv; lia). lia. }
  set (n := Z.to_nat (d - 53)).
  set (Q := (k + 1) * 2 ^ (105 - d)).
  assert (HQ : 0 < Q) by (apply Z.mul_pos_pos; [lia | apply Z.pow_pos_nonneg; lia]).
  assert (HSQ : Zpos S = Q * 2 ^ Z.of_nat n).
  { rewrite HS. unfold Q, n. rewrite Z2Nat.id by lia.
    rewrite <- Z.mul_assoc, <- Z.pow_add_r by lia. f_equal. f_equal. lia. }
  assert (Hiter : S = Nat.iter n xO (Z.to_pos Q)).
  { apply Pos2Z.inj. rewrite value_iter_xO, Z2Pos.id by exact HQ. exact HSQ. }
  exists (Z.to_pos Q), (-52 + Z.of_nat n). split.
  - rewrite Hiter. apply binary_normalize_exact.
    + rewrite <- Hiter. fold d. unfold fexp, SpecFloat.emin, prec, emax, n.
      rewrite Z2Nat.id by lia. lia.
    + unfold n. rewrite Z2Nat.id by lia. lia.
  - rewrite Z2Pos.id by exact HQ. unfold Q, n. rewrite Z2Nat.id by lia.
    rewrite <- Z.mul_assoc, <- Z.pow_add_r by lia. f_equal. f_equal. lia.
Qed.

Lemma SFadd_one_exact (x : spec_float) (k : Z) :
  valid_binary x = true -> is_nan_spec x = false ->
  0 <= k -> k + 1 < 2 ^ 53 -> rank x = k * 2 ^ 1074 ->
  let y := SFadd prec emax x (S754_finite false 4503599627370496 (-52)) in
  is_nan_spec y = false /\ rank y = (k + 1) * 2 ^ 1074.
Proof.
  intros Vx Nx Hk Hk1 Hr.
  assert (P1074 : 0 < 2 ^ 1074) by (apply Z.pow_pos_nonneg; lia).
  destruct x as [s | s | | s m e]; try discriminate; cbn [rank] in Hr.
  - (* x is a zero, and k is 0 *)
    assert (k = 0) by nia. subst k. cbn [SFadd]. split; [reflexivity |].
    vm_compute. reflexivity.
  - (* an infinity has no such rank *)
    exfalso. change (2 ^ 2100) with (2 ^ 1026 * 2 ^ 1074) in Hr.
    assert (2 ^ 53 < 2 ^ 1026) by (apply Z.pow_lt_mono_r; lia).
    assert (0 < 2 ^ 1026) by lia.
    destruct s; cbn [cond_Zopp] in Hr; nia.
  - (* x is k, held at an exponent between -52 and 0 *)
    cbn [valid_binary] in Vx.
    pose proof (rank_finite_bounds m e Vx) as Hb.
    apply bounded_inv in Vx as (He & Hm & Hn).
    destruct s; cbn [cond_Zopp] in Hr; [nia |].
    assert (He52 : -52 <= e).
    { destruct (Z_le_gt_dec (-52) e) as [H | H]; [exact H | exfalso].
      assert (2 ^ (e + 1074) <= 2 ^ 1021) by (apply Z.pow_le_mono_r; lia).
      change (2 ^ 1074) with (2 ^ 53 * 2 ^ 1021) in Hr.
      assert (0 < 2 ^ 1021) by (apply Z.pow_pos_nonneg; lia).
      assert (1 <= k) by nia. nia. }
    assert (He0 : e <= 0).
    { destruct (Z_le_gt_dec e 0) as [H | H]; [exact H | exfalso].
      specialize (Hn ltac:(lia)).
      assert (2 ^ 1075 <= 2 ^ (e + 1074)) by (apply Z.pow_le_mono_r; lia).
      change (2 ^ 1075) with (2 * 2 ^ 1074) in *.
      change (2 ^ 53) with (2 * 2 ^ 52) in *. nia. }
    cbn [SFadd]. rewrite Z.min_r by lia.
    pose proof (shl_align_fst m e (-52) ltac:(lia)) as Hx.
    cbn [cond_Zopp].
    change (fst (shl_align 4503599627370496 (-52) (-52))) with 4503599627370496%positive.
    set (a := fst (shl_align m e (-52))) in *.
    change (Zpos a + Zpos 4503599627370496) with (Zpos (a + 4503599627370496)).
    assert (HS : Zpos (a + 4503599627370496) = (k + 1) * 2 ^ 52).
    { rewrite Pos2Z.inj_add, Hx. change (Zpos 4503599627370496) with (2 ^ 52).
      replace (e + 1074) with (e - -52 + 1022) in Hr by lia.
      rewrite Z.pow_add_r in Hr by lia.
      change (2 ^ 1074) with (2 ^ 52 * 2 ^ 1022) in Hr.
      assert (0 < 2 ^ 1022) by (apply Z.pow_pos_nonneg; lia). nia. }
    destruct (normalize_succ _ k Hk Hk1 HS) as (q & e' & -> & Hval).
    split; [reflexivity | exact Hval].
Qed.

Lemma Prim2SF_0 : Prim2SF 0 = S754_zero false.
Proof. vm_compute. reflexivity. Qed.

Lemma Prim2SF_1 : Prim2SF 1 = S754_finite false 4503599627370496 (-52).
Proof. vm_compute. reflexivity. Qed.

Lemma Prim2SF_100 : Prim2SF 100 = S754_finite false 7036874417766400 (-46).
Proof. vm_compute. reflexivity. Qed.

Local Open Scope float_scope.

Lemma number_of_nat_rank (k : nat) :
  (Z.of_nat k < 2 ^ 53)%Z ->
  number_rank (number_of_nat k) = Some (Z.of_nat k * 2 ^ 1074)%Z.
Proof.
  induction k as [| k IH]; intros Hk.
  - vm_compute. reflexivity.
  - specialize (IH ltac:(lia)). rewrite number_rank_spec in IH.
    cbn [number_of_nat]. rewrite number_rank_spec, add_spec, Prim2SF_1. unfold SF64add.
    destruct (is_nan_spec (Prim2SF (number_of_nat k))) eqn:Nx; [discriminate |].
    injection IH as IH.
    destruct (SFadd_one_exact (Prim2SF (number_of_nat k)) (Z.of_nat k)
                (Prim2SF_valid _) Nx ltac:(lia) ltac:(lia) IH) as [-> ->].
    f_equal. f_equal. lia.
Qed.

Lemma number_of_nat_ltb (k m : nat) :
  (Z.of_nat k < 2 ^ 53)%Z -> (Z.of_nat m < 2 ^ 53)%Z ->
  (number_of_nat k <? number_of_nat m) = (k <? m)%nat.
Proof.
  intros Hk Hm. rewrite ltb_rank, !number_of_nat_rank by assumption.
  assert (0 < 2 ^ 1074)%Z by (apply Z.pow_pos_nonneg; lia).
  destruct (Nat.ltb_spec k m) as [H1 | H1]; [apply Z.ltb_lt | apply Z.ltb_ge]; nia.
Qed.

Lemma js_for_loop_iter {T : Type} (body : T -> T) (m : nat) :
  (Z.of_nat m < 2 ^ 53)%Z ->
  forall (fuel k : nat) (s : T),
    (k <= m)%nat -> (m - k < fuel)%nat ->
    js_for_loop fuel (number_of_nat k) (number_of_nat m) body s
    = Some (Nat.iter (m - k) body s).
Proof.
  intros Hm. induction fuel as [| fuel IH]; intros k s Hk Hfuel; [lia |].
  cbn [js_for_loop]. rewrite number_of_nat_ltb by lia.
  destruct (Nat.ltb_spec k m) as [Hlt | Hge].
  - change (number_of_nat k + 1) with (number_of_nat (S k)).
    rewrite IH by lia. rewrite <- Nat.iter_succ_r. do 2 f_equal. lia.
  - replace (m - k)%nat with O by lia. reflexivity.
Qed.

End ExactCounting.

(** ** The order of doubles *)

Section FloatFacts.

Ltac by_rank :=
  rewrite ?ltb_rank, ?leb_rank, ?eqb_rank;
  repeat match goal with
         | |- context [number_rank ?x] => destruct (number_rank x)
         end;
  try discriminate;
  rewrite ?Z.ltb_lt, ?Z.ltb_ge, ?Z.leb_le, ?Z.eqb_eq;
  try lia.

Lemma ltb_asym (x y : float) : (x <? y) = true -> (y <? x) = false.
Proof. by_rank. Qed.

Lemma leb_not_ltb (x y : float) : (x <=? y) = true -> (y <? x) = false.
Proof. by_rank. Qed.

Lemma leb_trans (x y z : float) :
  (x <=? y) = true -> (y <=? z) = true -> (x <=? z) = true.
Proof. by_rank. Qed.

Lemma eqb_not_ltb (x y k : float) :
  (x =? k) = true -> (y =? k) = true -> (y <? x) = false.
Proof. by_rank. Qed.

Lemma not_ltb_leb (x y : float) :
  is_nan x = false -> is_nan y = false -> (y <? x) = false -> (x <=? y) = true.
Proof.
  intros Nx Ny. rewrite ltb_rank, leb_rank, !number_rank_numeric by assumption.
  rewrite Z.ltb_ge, Z.leb_le. trivial.
Qed.

Lemma leb_numeric (x y : float) :
  is_nan x = false -> is_nan y = false ->
  (x <=? y) = (rank (Prim2SF x) <=? rank (Prim2SF y))%Z.
Proof. intros Nx Ny. rewrite leb_rank, !number_rank_numeric by assumption. reflexivity. Qed.

Lemma eqb_numeric (x y : float) :
  is_nan x = false -> is_nan y = false ->
  (x =? y) = (rank (Prim2SF x) =? rank (Prim2SF y))%Z.
Proof. intros Nx Ny. rewrite eqb_rank, !number_rank_numeric by assumption. reflexivity. Qed.

Lemma is_nan_not_pos (v : float) : is_nan v = true -> (0 <? v) = false.
Proof.
  intros H. rewrite ltb_rank. unfold number_rank at 2. rewrite H.
  destruct (number_rank 0); reflexivity.
Qed.

(** The rank of any double is the rank of a numeric one. *)
Lemma rank_of_numeric (x : float) :
  exists v, is_nan v = false /\ rank (Prim2SF v) = rank (Prim2SF x).
Proof.
  destruct (is_nan x) eqn:E.
  - exists 0. split; [reflexivity |].
    rewrite <- Prim2SF_is_nan in E. destruct (Prim2SF x); try discriminate. reflexivity.
  - exists x. split; [exact E | reflexivity].
Qed.

End FloatFacts.

(** * Part IV: [toFixed] *)

Section ToFixedFacts.

Variable Number_toString : number -> string.

(** A negative number prints with a minus sign. *)
Lemma toFixed_negative (x : number) (f : nat) :
  (x <? 0) = true -> exists rest, toFixed Number_toString x f = String "-" rest.
Proof.
  rewrite ltb_spec, Prim2SF_0. unfold toFixed.
  destruct (Prim2SF x) as [s | s | | s m e]; cbn; try discriminate;
    destruct s; try discriminate; intros _; eexists; reflexivity.
Qed.

(** A number that equals zero is one of the two zeros. *)
Lemma eqb_0_inv (i : number) : (i =? 0) = true -> exists s, Prim2SF i = S754_zero s.
Proof.
  rewrite eqb_spec, Prim2SF_0.
  destruct (Prim2SF i) as [s | s | | s m e]; cbn; try discriminate;
    [eauto | destruct s; discriminate ..].
Qed.

(** Dividing by zero and scaling by 100 leaves an infinity or NaN. *)
Lemma percent_of_zero_income (d i : number) :
  (i =? 0) = true -> not_a_finite_amount (toFixed Number_toString (d / i * 100) 2).
Proof.
  intros Hi. destruct (eqb_0_inv i Hi) as [si Ei].
  unfold toFixed, not_a_finite_amount. rewrite mul_spec, div_spec, Ei, Prim2SF_100.
  destruct (Prim2SF d) as [s | s | | s m e]; destruct si; try destruct s; cbn; auto.
Qed.

(** Adding a zero to 1 leaves 1. *)
Lemma one_plus_zero (r : number) : (r =? 0) = true -> 1 + r = 1.
Proof.
  intros Hr. destruct (eqb_0_inv r Hr) as [s Er].
  apply Prim2SF_inj. rewrite add_spec, Er, Prim2SF_1. reflexivity.
Qed.

(** [P * r * 1 / 0] is NaN when [r] is zero, whatever [P] is. *)
Lemma zero_over_zero (P r : number) :
  (r =? 0) = true -> toFixed Number_toString (P * r * 1 / 0) 2 = "NaN"%string.
Proof.
  intros Hr. destruct (eqb_0_inv r Hr) as [sr Er].
  unfold toFixed. rewrite div_spec, !mul_spec, Er, Prim2SF_0, Prim2SF_1.
  destruct (Prim2SF P) as [s | s | | s m e]; try destruct s; destruct sr; reflexivity.
Qed.

End ToFixedFacts.

(** * Part V: [Array.prototype.sort] *)

Section ArraySortFacts.

Context {A : Type}.
Variable comparefn : A -> A -> number.

Lemma sorts_after_comparefn (x y : A) :
  sorts_after comparefn x y = (0 <? comparefn x y).
Proof.
  unfold sorts_after, SortCompare.
  destruct (is_nan (comparefn x y)) eqn:E; [| reflexivity].
  rewrite (is_nan_not_pos _ E). reflexivity.
Qed.

Lemma insert_sorted_perm (x : A) (l : list A) :
  Permutation (insert_sorted comparefn x l) (x :: l).
Proof.
  induction l as [| y l IH]; cbn [insert_sorted]; [reflexivity |].
  destruct (sorts_after comparefn x y); [| reflexivity].
  rewrite IH. apply perm_swap.
Qed.

Lemma Array_sort_perm (l : list A) : Permutation (Array_sort comparefn l) l.
Proof.
  induction l as [| x l IH]; cbn [Array_sort]; [reflexivity |].
  rewrite insert_sorted_perm. constructor. exact IH.
Qed.

(** An element is only moved past those it sorts after, so a list already in
    order is left as it is. *)
Lemma Array_sort_in_order (l : list A) :
  Sorted (in_order comparefn) l -> Array_sort comparefn l = l.
Proof.
  induction 1 as [| x l Hs IH Hd]; cbn [Array_sort]; [reflexivity |].
  rewrite IH. destruct Hd as [| y l Hxy]; cbn [insert_sorted]; [reflexivity |].
  unfold in_order in Hxy. rewrite Hxy. reflexivity.
Qed.

(** Elements that never sort after one another are not reordered. *)
Lemma filter_insert_sorted (p : A -> bool) (x : A) (l : list A) :
  (forall y, p x = true -> p y = true -> sorts_after comparefn x y = false) ->
  filter p (insert_sorted comparefn x l) = filter p (x :: l).
Proof.
  intros Hp. induction l as [| y l IH]; cbn [insert_sorted]; [reflexivity |].
  destruct (sorts_after comparefn x y) eqn:E; [| reflexivity].
  cbn [filter] in *. rewrite IH.
  destruct (p x) eqn:Px, (p y) eqn:Py; try reflexivity.
  rewrite (Hp y eq_refl Py) in E. discriminate.
Qed.

Lemma Array_sort_stable (p : A -> bool) (l : list A) :
  (forall a b, p a = true -> p b = true -> sorts_after comparefn a b = false) ->
  filter p (Array_sort comparefn l) = filter p l.
Proof.
  intros Hp. induction l as [| x l IH]; cbn [Array_sort]; [reflexivity |].
  rewrite filter_insert_sorted by (intros y; apply Hp).
  cbn [filter]. rewrite IH. reflexivity.
Qed.

(** With a comparator that never puts two elements each after the other, the
    result is in order. *)
Hypothesis sorts_after_asym :
  forall a b, sorts_after comparefn a b = true -> sorts_after comparefn b a = false.

Lemma insert_sorted_HdRel (y x : A) (l : list A) :
  in_order comparefn y x -> HdRel (in_order comparefn) y l ->
  HdRel (in_order comparefn) y (insert_sorted comparefn x l).
Proof.
  intros Hyx Hd. destruct l as [| z l]; cbn [insert_sorted].
  - constructor. exact Hyx.
  - destruct (sorts_after comparefn x z); constructor.
    + inversion Hd; assumption.
    + exact Hyx.
Qed.

Lemma insert_sorted_Sorted (x : A) (l : list A) :
  Sorted (in_order comparefn) l -> Sorted (in_order comparefn) (insert_sorted comparefn x l).
Proof.
  induction 1 as [| y l Hs IH Hd]; cbn [insert_sorted].
  - repeat constructor.
  - destruct (sorts_after comparefn x y) eqn:E.
    + constructor; [exact IH |].
      apply insert_sorted_HdRel; [| exact Hd].
      apply sorts_after_asym. exact E.
    + constructor; [constructor; assumption |]. constructor. exact E.
Qed.

Lemma Array_sort_Sorted (l : list A) : Sorted (in_order comparefn) (Array_sort comparefn l).
Proof.
  induction l as [| x l IH]; cbn [Array_sort]; [constructor |].
  apply insert_sorted_Sorted. exact IH.
Qed.

Lemma Array_sort_idempotent (l : list A) :
  Array_sort comparefn (Array_sort comparefn l) = Array_sort comparefn l.
Proof. apply Array_sort_in_order, Array_sort_Sorted. Qed.

End ArraySortFacts.

(** A list in order for one relation is in order for any relation that
    follows from it on the elements of the list. *)
Lemma Sorted_on {A : Type} (P : A -> Prop) (R R' : A -> A -> Prop) (l : list A) :
  (forall a b, P a -> P b -> R a b -> R' a b) ->
  Forall P l -> Sorted R l -> Sorted R' l.
Proof.
  intros HR HP Hs. induction Hs as [| x l Hs IH Hd]; [constructor |].
  inversion HP as [| ? ? Px Pl]; subst.
  constructor; [apply IH; exact Pl |].
  destruct Hd as [| y l Hxy]; constructor.
  inversion Pl; subst. apply HR; assumption.
Qed.

Lemma StronglySorted_on {A : Type} (P : A -> Prop) (R R' : A -> A -> Prop) (l : list A) :
  (forall a b, P a -> P b -> R a b -> R' a b) ->
  Forall P l -> StronglySorted R l -> StronglySorted R' l.
Proof.
  intros HR HP Hs. induction Hs as [| x l Hs IH Hd]; [constructor |].
  inversion HP as [| ? ? Px Pl]; subst.
  constructor; [apply IH; exact Pl |].
  rewrite Forall_forall in *. intros y Hy. apply HR; auto.
Qed.

(** ** A sorted list is fixed by its classes of ties *)

Section StableSortUnique.

Context {A : Type}.
Variable k : A -> Z.

Lemma tied_with_refl (x : A) : tied_with k x x = true.
Proof. apply Z.eqb_refl. Qed.

(** Two lists in the order of their keys, in which the elements of each key
    come in the same sequence, are the same list. *)
Lemma sorted_stable_unique (l1 : list A) :
  forall l2 : list A,
    StronglySorted (le_by k) l1 -> StronglySorted (le_by k) l2 ->
    (forall x, filter (tied_with k x) l1 = filter (tied_with k x) l2) ->
    l1 = l2.
Proof.
  induction l1 as [| x t1 IH]; intros [| y t2] S1 S2 H.
  - reflexivity.
  - specialize (H y). cbn [filter] in H. rewrite tied_with_refl in H. discriminate.
  - specialize (H x). cbn [filter] in H. rewrite tied_with_refl in H. discriminate.
  - apply StronglySorted_inv in S1 as [S1 F1], S2 as [S2 F2].
    assert (Hxy : le_by k x y).
    { assert (Hin : In y (filter (tied_with k y) (x :: t1))).
      { rewrite (H y). cbn [filter]. rewrite tied_with_refl. left. reflexivity. }
      apply filter_In in Hin as [[<- | Hin] _]; [unfold le_by; lia |].
      rewrite Forall_forall in F1. apply F1, Hin. }
    assert (Hyx : le_by k y x).
    { assert (Hin : In x (filter (tied_with k x) (y :: t2))).
      { rewrite <- (H x). cbn [filter]. rewrite tied_with_refl. left. reflexivity. }
      apply filter_In in Hin as [[<- | Hin] _]; [unfold le_by; lia |].
      rewrite Forall_forall in F2. apply F2, Hin. }
    assert (Hk : k x = k y) by (unfold le_by in *; lia).
    assert (x = y) as <-.
    { specialize (H x). cbn [filter] in H. rewrite tied_with_refl in H.
      unfold tied_with at 2 in H. rewrite <- Hk, Z.eqb_refl in H.
      injection H as H _. exact H. }
    f_equal. apply IH; [exact S1 | exact S2 |].
    intros z. specialize (H z). cbn [filter] in H.
    destruct (tied_with k z x); [injection H as H; exact H | exact H].
Qed.

End StableSortUnique.

(** ** The two comparators of the debt orderings *)

Section DebtOrderFacts.

Lemma sorts_after_by_balance (a b : Debt) :
  sorts_after by_balance a b = (balance b <? balance a).
Proof. rewrite sorts_after_comparefn. apply sub_pos. Qed.

Lemma sorts_after_by_interestRate (a b : Debt) :
  sorts_after by_interestRate a b
  = (ToNumber (interestRate a) <? ToNumber (interestRate b)).
Proof. rewrite sorts_after_comparefn. apply sub_pos. Qed.

Lemma by_balance_asym (a b : Debt) :
  sorts_after by_balance a b = true -> sorts_after by_balance b a = false.
Proof. rewrite !sorts_after_by_balance. apply ltb_asym. Qed.

Lemma by_interestRate_asym (a b : Debt) :
  sorts_after by_interestRate a b = true -> sorts_after by_interestRate b a = false.
Proof. rewrite !sorts_after_by_interestRate. apply ltb_asym. Qed.

Lemma balance_le_trans : Transitive balance_le.
Proof. intros a b c. apply leb_trans. Qed.

Lemma interestRate_ge_trans : Transitive interestRate_ge.
Proof. intros a b c H1 H2. exact (leb_trans _ _ _ H2 H1). Qed.

Lemma debtSnowball_numeric (debts : list Debt) :
  Forall numeric_balance debts -> Forall numeric_balance (debtSnowball debts).
Proof. apply Permutation_Forall. symmetry. apply Array_sort_perm. Qed.

Lemma debtAvalanche_numeric (debts : list Debt) :
  Forall numeric_interestRate debts -> Forall numeric_interestRate (debtAvalanche debts).
Proof. apply Permutation_Forall. symmetry. apply Array_sort_perm. Qed.

Lemma debtSnowball_ascending (debts : list Debt) :
  Forall numeric_balance debts -> ascending_by_balance (debtSnowball debts).
Proof.
  intros Hn. apply (Sorted_StronglySorted balance_le_trans).
  apply (Sorted_on numeric_balance (in_order by_balance)).
  - intros a b Na Nb. unfold in_order. rewrite sorts_after_by_balance.
    apply not_ltb_leb; assumption.
  - apply debtSnowball_numeric, Hn.
  - apply Array_sort_Sorted. exact by_balance_asym.
Qed.

Lemma debtAvalanche_descending (debts : list Debt) :
  Forall numeric_interestRate debts -> descending_by_interestRate (debtAvalanche debts).
Proof.
  intros Hn. apply (Sorted_StronglySorted interestRate_ge_trans).
  apply (Sorted_on numeric_interestRate (in_order by_interestRate)).
  - intros a b Na Nb. unfold in_order. rewrite sorts_after_by_interestRate.
    apply not_ltb_leb; assumption.
  - apply debtAvalanche_numeric, Hn.
  - apply Array_sort_Sorted. exact by_interestRate_asym.
Qed.

Lemma debtSnowball_stable (debts : list Debt) :
  stable_on same_balance debts (debtSnowball debts).
Proof.
  intros k. apply Array_sort_stable. intros a b Ha Hb.
  rewrite sorts_after_by_balance. exact (eqb_not_ltb _ _ k Ha Hb).
Qed.

Lemma debtAvalanche_stable (debts : list Debt) :
  stable_on same_interestRate debts (debtAvalanche debts).
Proof.
  intros k. apply Array_sort_stable. intros a b Ha Hb.
  rewrite sorts_after_by_interestRate. exact (eqb_not_ltb _ _ k Hb Ha).
Qed.

(** A list in the order of the specification is in order for the sort. *)
Lemma ascending_in_order (l : list Debt) :
  ascending_by_balance l -> Sorted (in_order by_balance) l.
Proof.
  intros H. apply StronglySorted_Sorted in H.
  apply (Sorted_on (fun _ => True) balance_le); [| apply Forall_forall; trivial | exact H].
  intros a b _ _ Hab. unfold in_order. rewrite sorts_after_by_balance.
  apply leb_not_ltb. exact Hab.
Qed.

Lemma descending_in_order (l : list Debt) :
  descending_by_interestRate l -> Sorted (in_order by_interestRate) l.
Proof.
  intros H. apply StronglySorted_Sorted in H.
  apply (Sorted_on (fun _ => True) interestRate_ge); [| apply Forall_forall; trivial | exact H].
  intros a b _ _ Hab. unfold in_order. rewrite sorts_after_by_interestRate.
  apply leb_not_ltb. exact Hab.
Qed.

(** The order and the ties of the specification are those of the ranks. *)
Lemma balance_le_rank (a b : Debt) :
  numeric_balance a -> numeric_balance b -> balance_le a b -> le_by balance_rank a b.
Proof.
  intros Na Nb Hab. unfold balance_le in Hab. rewrite leb_numeric in Hab by assumption.
  apply Z.leb_le, Hab.
Qed.

Lemma interestRate_ge_rank (a b : Debt) :
  numeric_interestRate a -> numeric_interestRate b ->
  interestRate_ge a b -> le_by interestRate_rank a b.
Proof.
  intros Na Nb Hab. unfold interestRate_ge in Hab. rewrite leb_numeric in Hab by assumption.
  apply Z.leb_le in Hab. unfold le_by, interestRate_rank. lia.
Qed.

Lemma tied_balance (x : Debt) :
  exists v, forall l, Forall numeric_balance l ->
    filter (tied_with balance_rank x) l = filter (same_balance v) l.
Proof.
  destruct (rank_of_numeric (balance x)) as (v & Nv & Ev). exists v.
  intros l Hl. apply filter_ext_in. intros d Hd.
  rewrite Forall_forall in Hl. unfold tied_with, same_balance, balance_rank.
  rewrite eqb_numeric, Ev by (auto; apply Hl, Hd). reflexivity.
Qed.

Lemma tied_interestRate (x : Debt) :
  exists v, forall l, Forall numeric_interestRate l ->
    filter (tied_with interestRate_rank x) l = filter (same_interestRate v) l.
Proof.
  destruct (rank_of_numeric (ToNumber (interestRate x))) as (v & Nv & Ev). exists v.
  intros l Hl. apply filter_ext_in. intros d Hd.
  rewrite Forall_forall in Hl. unfold tied_with, same_interestRate, interestRate_rank.
  rewrite eqb_numeric, Ev by (auto; apply Hl, Hd).
  destruct (Z.eqb_spec (- rank (Prim2SF (ToNumber (interestRate d))))
              (- rank (Prim2SF (ToNumber (interestRate x))))) as [E | E];
    symmetry; [apply Z.eqb_eq | apply Z.eqb_neq]; lia.
Qed.

(** Whatever stable sort the engine runs, it returns what [Array_sort]
    returns: the stable arrangement of numeric keys in order is unique. *)
Theorem debtSnowball_unique (debts out : list Debt) :
  Forall numeric_balance debts ->
  Permutation debts out -> ascending_by_balance out -> stable_on same_balance debts out ->
  out = debtSnowball debts.
Proof.
  intros Hn Hp Hs Hst.
  assert (Ho : Forall numeric_balance out) by exact (Permutation_Forall Hp Hn).
  pose proof (debtSnowball_numeric debts Hn) as Hd.
  apply (sorted_stable_unique balance_rank).
  - exact (StronglySorted_on _ _ _ _ balance_le_rank Ho Hs).
  - exact (StronglySorted_on _ _ _ _ balance_le_rank Hd (debtSnowball_ascending debts Hn)).
  - intros x. destruct (tied_balance x) as [v Hv].
    rewrite !Hv by assumption. rewrite (Hst v). symmetry. apply debtSnowball_stable.
Qed.

Theorem debtAvalanche_unique (debts out : list Debt) :
  Forall numeric_interestRate debts ->
  Permutation debts out -> descending_by_interestRate out ->
  stable_on same_interestRate debts out ->
  out = debtAvalanche debts.
Proof.
  intros Hn Hp Hs Hst.
  assert (Ho : Forall numeric_interestRate out) by exact (Permutation_Forall Hp Hn).
  pose proof (debtAvalanche_numeric debts Hn) as Hd.
  apply (sorted_stable_unique interestRate_rank).
  - exact (StronglySorted_on _ _ _ _ interestRate_ge_rank Ho Hs).
  - exact (StronglySorted_on _ _ _ _ interestRate_ge_rank Hd
             (debtAvalanche_descending debts Hn)).
  - intros x. destruct (tied_interestRate x) as [v Hv].
    rewrite !Hv by assumption. rewrite (Hst v). symmetry. apply debtAvalanche_stable.
Qed.

Lemma store_same (h : heap) (r : ref) (v : list Debt) : store h r v r = v.
Proof. unfold store. rewrite Nat.eqb_refl. reflexivity. Qed.

End DebtOrderFacts.

(** The case of the test suite and that of the README. *)
Example debtSnowball_test :
  map name (debtSnowball snowball_debts)
  = ["Credit Card B"; "Credit Card A"; "Personal Loan"]%string.
Proof. vm_compute. reflexivity. Qed.

Example debtAvalanche_test :
  map name (debtAvalanche avalanche_debts)
  = ["Credit Card"; "Car Loan"; "Student Loan"]%string.
Proof. vm_compute. reflexivity. Qed.

(** * Part VI: counted loops *)

Section Loops.

Context {T : Type}.
Variable body : T -> T.

(** With fuel enough for the passes that are left, the loop makes exactly
    those passes and leaves by its test. *)
Lemma for_loop_from_iter (fuel : nat) :
  forall (i n : nat) (s : T),
    (n - i <= fuel)%nat -> for_loop_from fuel i n body s = Nat.iter (n - i) body s.
Proof.
  induction fuel as [| fuel IH]; intros i n s Hfuel; cbn [for_loop_from].
  - replace (n - i)%nat with O by lia. reflexivity.
  - destruct (Nat.ltb_spec i n) as [Hlt | Hge].
    + rewrite IH by lia. rewrite <- Nat.iter_succ_r. f_equal. lia.
    + replace (n - i)%nat with O by lia. reflexivity.
Qed.

Lemma for_loop_iter (n : nat) (s : T) : for_loop n body s = Nat.iter n body s.
Proof.
  unfold for_loop. rewrite for_loop_from_iter by lia. f_equal. lia.
Qed.

(** The loop of the source counts in doubles. Below [2^53] it makes the
    passes of [for_loop], and it leaves by its test once there is fuel for
    one pass more than the bound. *)
Theorem for_loop_on_doubles (m fuel : nat) (s : T) :
  (Z.of_nat m < 2 ^ 53)%Z -> (m < fuel)%nat ->
  js_for_loop fuel 0 (number_of_nat m) body s = Some (for_loop m body s).
Proof.
  intros Hm Hfuel. rewrite for_loop_iter.
  change 0 with (number_of_nat 0).
  rewrite (js_for_loop_iter body m Hm fuel 0 s) by lia.
  do 2 f_equal. lia.
Qed.

End Loops.

Example number_of_nat_12 : number_of_nat 12 = 12.
Proof. vm_compute. reflexivity. Qed.

Lemma sip_loop_recurrence (x r : number) (m : nat) :
  for_loop m (fun totalAmount => (totalAmount + x) * (1 + r / 12)) 0
  = sip_recurrence x r m.
Proof.
  rewrite for_loop_iter.
  induction m as [| m IH]; [reflexivity |].
  cbn [Nat.iter nat_rect sip_recurrence]. unfold Nat.iter in IH. rewrite IH. reflexivity.
Qed.

(** ** Exact operations and NaN *)

Section ExactArithmetic.

Local Open Scope Z_scope.

(** Subtracting zero changes no double, [-0] and NaN included. *)
Lemma sub_zero (x : float) : (x - 0)%float = x.
Proof.
  apply Prim2SF_inj. rewrite sub_spec, Prim2SF_0.
  destruct (Prim2SF x) as [s | s | | s m e]; try destruct s; reflexivity.
Qed.

(** The mantissa of a double sits at its exponent. *)
Lemma canonical_inv (m : positive) (e : Z) :
  bounded prec emax m e = true ->
  fexp prec emax (Zpos (digits2_pos m) + e) = e /\ e <= 971.
Proof.
  unfold bounded, canonical_mantissa. rewrite andb_true_iff, Z.eqb_eq, Z.leb_le.
  unfold emax, prec. intros [H1 H2]. split; [exact H1 | lia].
Qed.

(** Rounding [q * 2^k * 2^e] of either sign is exact when the format puts
    it at exponent [e + k]. *)
Lemma binary_round_aux_exact (s : bool) (q : positive) (k : nat) (e : Z) :
  fexp prec emax (Zpos (digits2_pos (Nat.iter k xO q)) + e) = e + Z.of_nat k ->
  e + Z.of_nat k <= 971 ->
  binary_round_aux prec emax s (Zpos (Nat.iter k xO q)) e loc_Exact
  = S754_finite s q (e + Z.of_nat k).
Proof.
  intros Hc He. unfold binary_round_aux, shr_fexp. cbn [Zdigits2].
  rewrite Hc. replace (e + Z.of_nat k - e) with (Z.of_nat k) by lia.
  rewrite digits_iter_xO in Hc.
  assert (Hc' : fexp prec emax (Zpos (digits2_pos q) + (e + Z.of_nat k)) = e + Z.of_nat k).
  { rewrite <- Hc at 2. f_equal. lia. }
  assert (Hle : (e + Z.of_nat k <=? emax - prec) = true).
  { apply Z.leb_le. unfold emax, prec. lia. }
  destruct k as [| k].
  - cbn [Z.of_nat Nat.iter nat_rect] in *. rewrite Z.add_0_r in *.
    cbn [shr shr_record_of_loc shr_m loc_of_shr_record round_nearest_even Zdigits2].
    rewrite Hc', Z.sub_diag. cbn [shr shr_m]. rewrite Hle. reflexivity.
  - replace (Z.of_nat (S k)) with (Zpos (Pos.of_succ_nat k)) at 1 by lia.
    cbn [shr shr_record_of_loc].
    rewrite (iter_pos_shr_exact _ (S k) q (SuccNat2Pos.id_succ k)).
    cbn [shr_m loc_of_shr_record round_nearest_even Zdigits2].
    replace (e + Zpos (Pos.of_succ_nat k)) with (e + Z.of_nat (S k)) by lia.
    rewrite Hc', Z.sub_diag. cbn [shr shr_m]. rewrite Hle. reflexivity.
Qed.

(** Multiplying by 1 and dividing by 1 change no double. *)
Lemma mul_one (x : float) : (x * 1)%float = x.
Proof.
  apply Prim2SF_inj. rewrite mul_spec, Prim2SF_1.
  pose proof (Prim2SF_valid x) as V.
  destruct (Prim2SF x) as [s | s | | s m e]; try (destruct s; reflexivity); try reflexivity.
  cbn [valid_binary] in V. apply canonical_inv in V as [Hc He].
  unfold SF64mul. cbn [SFmul]. rewrite xorb_false_r, Pos.mul_comm.
  change (4503599627370496 * m)%positive with (Nat.iter 52 xO m).
  rewrite binary_round_aux_exact; change (Z.of_nat 52) with 52.
  - f_equal. lia.
  - rewrite digits_iter_xO. change (Z.of_nat 52) with 52.
    replace (Zpos (digits2_pos m) + 52 + (e + -52)) with (Zpos (digits2_pos m) + e) by lia.
    rewrite Hc. lia.
  - lia.
Qed.

Lemma div_eucl_exact (a b : Z) : 0 < b -> Z.div_eucl (a * b) b = (a, 0).
Proof.
  intros Hb. pose proof (Z_div_mult_full a b ltac:(lia)) as Hq.
  pose proof (Z_mod_mult a b) as Hr.
  unfold Z.div, Z.modulo in *. destruct (Z.div_eucl (a * b) b) as [q r].
  cbn in *. congruence.
Qed.

Lemma div_one (x : float) : (x / 1)%float = x.
Proof.
  apply Prim2SF_inj. rewrite div_spec, Prim2SF_1.
  pose proof (Prim2SF_valid x) as V.
  destruct (Prim2SF x) as [s | s | | s m e]; try (destruct s; reflexivity); try reflexivity.
  cbn [valid_binary] in V. apply canonical_inv in V as [Hc He].
  unfold SF64div. cbn [SFdiv]. unfold SFdiv_core_binary. cbn [Zdigits2].
  change (digits2_pos 4503599627370496) with 53%positive. rewrite xorb_false_r.
  assert (Ht : fexp prec emax (Zpos (digits2_pos m) + e - (53 + -52)) = e
               \/ fexp prec emax (Zpos (digits2_pos m) + e - (53 + -52)) = e - 1).
  { unfold fexp, SpecFloat.emin, prec, emax in *. lia. }
  destruct Ht as [Ht | Ht]; rewrite Ht; rewrite Z.min_l by lia.
  - replace (e - -52 - e) with 52 by lia. rewrite Z.shiftl_mul_pow2 by lia.
    change (2 ^ 52) with (Zpos 4503599627370496). rewrite div_eucl_exact by lia.
    change (new_location (Zpos 4503599627370496) 0) with loc_Exact.
    pose proof (binary_round_aux_exact s m 0 e) as Hx.
    cbn [Nat.iter nat_rect Z.of_nat] in Hx. rewrite Z.add_0_r in Hx.
    apply Hx; [exact Hc | lia].
  - replace (e - -52 - (e - 1)) with 53 by lia. rewrite Z.shiftl_mul_pow2 by lia.
    change (2 ^ 53) with (2 * Zpos 4503599627370496). rewrite Z.mul_assoc.
    rewrite div_eucl_exact by lia.
    change (new_location (Zpos 4503599627370496) 0) with loc_Exact.
    pose proof (binary_round_aux_exact s m 1 (e - 1)) as Hx.
    cbn [Nat.iter nat_rect digits2_pos] in Hx. change (Z.of_nat 1) with 1 in Hx.
    replace (e - 1 + 1) with e in Hx by lia.
    replace (Zpos (Pos.succ (digits2_pos m)) + (e - 1))
      with (Zpos (digits2_pos m) + e) in Hx by lia.
    replace (Zpos m * 2) with (Zpos (xO m)) by lia.
    apply Hx; [exact Hc | lia].
Qed.

Local Open Scope float_scope.

(** NaN spreads through every operation. *)
Lemma Prim2SF_nan : Prim2SF nan = S754_nan.
Proof. vm_compute. reflexivity. Qed.

Lemma nan_mul_l (y : float) : nan * y = nan.
Proof. apply Prim2SF_inj. rewrite mul_spec, Prim2SF_nan. reflexivity. Qed.

Lemma nan_mul_r (x : float) : x * nan = nan.
Proof.
  apply Prim2SF_inj. rewrite mul_spec, Prim2SF_nan.
  destruct (Prim2SF x) as [s | s | | s m e]; reflexivity.
Qed.

Lemma nan_div_l (y : float) : nan / y = nan.
Proof. apply Prim2SF_inj. rewrite div_spec, Prim2SF_nan. reflexivity. Qed.

Lemma nan_div_r (x : float) : x / nan = nan.
Proof.
  apply Prim2SF_inj. rewrite div_spec, Prim2SF_nan.
  destruct (Prim2SF x) as [s | s | | s m e]; reflexivity.
Qed.

Lemma nan_sub_l (y : float) : nan - y = nan.
Proof. apply Prim2SF_inj. rewrite sub_spec, Prim2SF_nan. reflexivity. Qed.

Lemma nan_sub_r (x : float) : x - nan = nan.
Proof.
  apply Prim2SF_inj. rewrite sub_spec, Prim2SF_nan.
  destruct (Prim2SF x) as [s | s | | s m e]; reflexivity.
Qed.

Lemma nan_add_l (y : float) : nan + y = nan.
Proof. apply Prim2SF_inj. rewrite add_spec, Prim2SF_nan. reflexivity. Qed.

Lemma nan_add_r (x : float) : x + nan = nan.
Proof.
  apply Prim2SF_inj. rewrite add_spec, Prim2SF_nan.
  destruct (Prim2SF x) as [s | s | | s m e]; reflexivity.
Qed.

(** Zero over zero is NaN. *)
Lemma zero_div_zero (z r : float) : (z =? 0) = true -> (r =? 0) = true -> z / r = nan.
Proof.
  intros Hz Hr. destruct (eqb_0_inv z Hz) as [sz Ez]. destruct (eqb_0_inv r Hr) as [sr Er].
  apply Prim2SF_inj. rewrite div_spec, Ez, Er, Prim2SF_nan. reflexivity.
Qed.

End ExactArithmetic.

(** ** The counter of the loop beyond the whole numbers *)

Section CountingFurther.

Lemma leb_ltb_trans (x y z : float) :
  (x <=? y) = true -> (y <? z) = true -> (x <? z) = true.
Proof.
  rewrite !ltb_rank, leb_rank.
  destruct (number_rank x), (number_rank y), (number_rank z); try discriminate.
  rewrite !Z.ltb_lt, Z.leb_le. lia.
Qed.

Lemma number_of_nat_leb (j k : nat) :
  (Z.of_nat k < 2 ^ 53)%Z -> (j <= k)%nat ->
  (number_of_nat j <=? number_of_nat k) = true.
Proof.
  intros Hk Hj. rewrite leb_rank, !number_of_nat_rank by lia.
  assert (0 < 2 ^ 1074)%Z by (apply Z.pow_pos_nonneg; lia).
  apply Z.leb_le. nia.
Qed.

(** Under a bound that is the natural number [m] the loop makes [m]
    passes. *)
Lemma js_for_loop_natural {T : Type} (body : T -> T) (months : number) (m : nat) :
  (Z.of_nat m < 2 ^ 53)%Z -> is_natural_number months m ->
  forall (fuel k : nat) (s : T),
    (k <= m)%nat -> (m - k < fuel)%nat ->
    js_for_loop fuel (number_of_nat k) months body s = Some (Nat.iter (m - k) body s).
Proof.
  intros Hm Hv. induction fuel as [| fuel IH]; intros k s Hk Hfuel; [lia |].
  cbn [js_for_loop]. rewrite ltb_rank, number_of_nat_rank, Hv by lia.
  assert (0 < 2 ^ 1074)%Z by (apply Z.pow_pos_nonneg; lia).
  destruct (Z.ltb_spec (Z.of_nat k * 2 ^ 1074) (Z.of_nat m * 2 ^ 1074)) as [Hlt | Hge].
  - change (number_of_nat k + 1) with (number_of_nat (S k)).
    rewrite IH by nia. rewrite <- Nat.iter_succ_r. do 2 f_equal. nia.
  - replace (m - k)%nat with O by nia. reflexivity.
Qed.

(** A bound between [k] and [k + 1] lets the loop make [k + 1] passes. *)
Lemma js_for_loop_rounds_up {T : Type} (body : T -> T) (months : number) (k : nat) :
  (Z.of_nat (S k) < 2 ^ 53)%Z ->
  (number_of_nat k <? months) = true -> (months <=? number_of_nat (S k)) = true ->
  forall (fuel j : nat) (s : T),
    (j <= S k)%nat -> (S k - j < fuel)%nat ->
    js_for_loop fuel (number_of_nat j) months body s = Some (Nat.iter (S k - j) body s).
Proof.
  intros Hk Hlo Hhi. induction fuel as [| fuel IH]; intros j s Hj Hfuel; [lia |].
  cbn [js_for_loop]. destruct (Nat.eq_dec j (S k)) as [-> | Hne].
  - rewrite (leb_not_ltb _ _ Hhi), Nat.sub_diag. reflexivity.
  - rewrite (leb_ltb_trans _ _ _ (number_of_nat_leb j k ltac:(lia) ltac:(lia)) Hlo).
    change (number_of_nat j + 1) with (number_of_nat (S j)).
    rewrite IH by lia. rewrite <- Nat.iter_succ_r. do 2 f_equal. lia.
Qed.

(** The counter stops at [2^53], where adding 1 changes nothing. *)
Lemma number_of_nat_last (k : nat) :
  Z.of_nat k = (2 ^ 53 - 1)%Z ->
  Prim2SF (number_of_nat k) = S754_finite false 9007199254740991 0.
Proof.
  intros Hk. pose proof (number_of_nat_rank k ltac:(lia)) as Hr.
  rewrite number_rank_spec, Hk in Hr. pose proof (Prim2SF_valid (number_of_nat k)) as V.
  assert (P1074 : (0 < 2 ^ 1074)%Z) by (apply Z.pow_pos_nonneg; lia).
  assert (Hx : is_nan_spec (Prim2SF (number_of_nat k)) = false
               /\ rank (Prim2SF (number_of_nat k)) = ((2 ^ 53 - 1) * 2 ^ 1074)%Z).
  { destruct (is_nan_spec (Prim2SF (number_of_nat k))); [discriminate |].
    split; congruence. }
  clear Hr. destruct Hx as [Hx Hr].
  change (2 ^ 53)%Z with 9007199254740992%Z in Hr.
  destruct (Prim2SF (number_of_nat k)) as [s | s | | s m e]; try discriminate Hx;
    cbn [rank] in Hr.
  - exfalso. nia.
  - exfalso. change (2 ^ 2100)%Z with (2 ^ 1026 * 2 ^ 1074)%Z in Hr.
    assert (2 ^ 53 < 2 ^ 1026)%Z by (apply Z.pow_lt_mono_r; lia).
    destruct s; cbn [cond_Zopp] in Hr; nia.
  - cbn [valid_binary] in V. pose proof (rank_finite_bounds m e V) as Hb.
    apply bounded_inv in V as (He & Hm & Hn).
    destruct s; cbn [cond_Zopp] in Hr; [nia |].
    assert (He0 : (e <= 0)%Z).
    { destruct (Z_le_gt_dec e 0) as [H | H]; [exact H | exfalso].
      specialize (Hn ltac:(lia)).
      assert (2 ^ 1075 <= 2 ^ (e + 1074))%Z by (apply Z.pow_le_mono_r; lia).
      change (2 ^ 1075)%Z with (2 * 2 ^ 1074)%Z in *.
      change (2 ^ 53)%Z with (2 * 2 ^ 52)%Z in *. nia. }
    assert (He1 : (0 <= e)%Z).
    { destruct (Z_le_gt_dec 0 e) as [H | H]; [exact H | exfalso].
      assert (2 ^ 1074 = 2 ^ (- e) * 2 ^ (e + 1074))%Z as E.
      { rewrite <- Z.pow_add_r by lia. f_equal. lia. }
      assert (2 <= 2 ^ (- e))%Z.
      { change 2%Z with (2 ^ 1)%Z at 1. apply Z.pow_le_mono_r; lia. }
      assert (0 < 2 ^ (e + 1074))%Z by (apply Z.pow_pos_nonneg; lia).
      rewrite E in Hr. change (2 ^ 53)%Z with 9007199254740992%Z in *. nia. }
    assert (e = 0%Z) by lia. subst e. cbn [Z.add] in Hr.
    assert (Zpos m = 9007199254740991%Z) by nia.
    f_equal. lia.
Qed.

Lemma number_of_nat_saturates (k : nat) :
  (2 ^ 53 <= Z.of_nat k)%Z -> number_of_nat k = 9007199254740992.
Proof.
  induction k as [| k IH]; intros Hk; [cbn in Hk; lia |].
  cbn [number_of_nat]. destruct (Z.eq_dec (Z.of_nat k) (2 ^ 53 - 1)) as [E | E].
  - apply Prim2SF_inj. rewrite add_spec, (number_of_nat_last k E).
    vm_compute. reflexivity.
  - rewrite IH by lia. vm_compute. reflexivity.
Qed.

Lemma number_of_nat_le_2_53 (k : nat) : (number_of_nat k <=? 9007199254740992) = true.
Proof.
  destruct (Z_lt_le_dec (Z.of_nat k) (2 ^ 53)) as [H | H].
  - rewrite leb_rank, number_of_nat_rank by exact H.
    replace (number_rank 9007199254740992) with (Some (2 ^ 53 * 2 ^ 1074)%Z)
      by (vm_compute; reflexivity).
    assert (0 < 2 ^ 1074)%Z by (apply Z.pow_pos_nonneg; lia).
    apply Z.leb_le. nia.
  - rewrite number_of_nat_saturates by exact H. vm_compute. reflexivity.
Qed.

(** Under a bound above [2^53] the test never fails. *)
Lemma js_for_loop_diverges {T : Type} (body : T -> T) (months : number) :
  (9007199254740992 <? months) = true ->
  forall (fuel k : nat) (s : T),
    js_for_loop fuel (number_of_nat k) months body s = None.
Proof.
  intros Hm. induction fuel as [| fuel IH]; intros k s; [reflexivity |].
  cbn [js_for_loop]. rewrite (leb_ltb_trans _ _ _ (number_of_nat_le_2_53 k) Hm).
  change (number_of_nat k + 1) with (number_of_nat (S k)). apply IH.
Qed.

End CountingFurther.

(** * Part VII: the properties of the specification *)

(** ** The SIP family *)

Section SipProperties.

Variable Number_toString : number -> string.

(** C1: for a natural number of months [m] below [2^53],
    [sipReturns x m r] returns the recurrence over [m] periods that starts
    from 0 and in each period adds [x] and then multiplies by [1 + r/12],
    printed to two decimals; it returns ["0.00"] for no period at all; the
    order matters: after one period of 100 at 12% a year the code has
    ["101.00"], where compounding before the deposit would leave
    ["100.00"]. The counter of the loop is a double, which counting by 1
    does not take beyond [2^53]: for more months than that the function
    does not return. *)
Theorem sipReturns_deposit_then_compound_below_2_53 :
  forall x r : number,
    (forall (months : number) (m fuel : nat),
        is_natural_number months m -> (Z.of_nat m < 2 ^ 53)%Z -> (m < fuel)%nat ->
        sipReturns_on_doubles Number_toString fuel x months r
        = Some (toFixed Number_toString (sip_recurrence x r m) 2))
    /\ (forall fuel : nat,
          sipReturns_on_doubles Number_toString (S fuel) x 0 r = Some "0.00"%string)
    /\ sipReturns_on_doubles Number_toString 2 100 1 0.12 = Some "101.00"%string
    /\ toFixed Number_toString (compound_then_deposit 100 0.12 1) 2 = "100.00"%string
    /\ (forall months : number,
          (9007199254740992 <? months) = true ->
          forall fuel : nat,
            sipReturns_on_doubles Number_toString fuel x months r = None).
Proof.
  intros x r. split; [| split; [| split; [| split]]].
  - intros months m fuel Hv Hm Hfuel. unfold sipReturns_on_doubles.
    change 0 with (number_of_nat 0) at 1.
    rewrite (js_for_loop_natural _ months m Hm Hv fuel 0) by lia.
    rewrite Nat.sub_0_r, <- for_loop_iter, sip_loop_recurrence. reflexivity.
  - intros fuel. reflexivity.
  - vm_compute. reflexivity.
  - vm_compute. reflexivity.
  - intros months Hm fuel. unfold sipReturns_on_doubles.
    change 0 with (number_of_nat 0) at 1.
    rewrite (js_for_loop_diverges _ months Hm). reflexivity.
Qed.

(** C10: [sipReturnsWithInflation x m r i] is the very string of
    [sipReturns x m (r - i)], [i] being 0.06 when it is not supplied; so it
    is on doubles, whatever [months] is. *)
Theorem sipReturnsWithInflation_shifts_rate :
  forall (x : number) (m : nat) (r : number) (i : option number),
    sipReturnsWithInflation Number_toString x m r i
    = sipReturns Number_toString x m (r - or_default 0.06 i)
    /\ sipReturnsWithInflation Number_toString x m r None
       = sipReturns Number_toString x m (r - 0.06)
    /\ (forall (fuel : nat) (months : number),
          sipReturnsWithInflation_on_doubles Number_toString fuel x months r i
          = sipReturns_on_doubles Number_toString fuel x months (r - or_default 0.06 i)).
Proof. intros x m r i. repeat split; reflexivity. Qed.

End SipProperties.

(** Twelve periods of 1000 at 8% a year. *)
Lemma sipReturns_twelve_periods :
  sipReturns_on_doubles no_toString 13 1000 12 0.08
  = Some (toFixed no_toString (sip_recurrence 1000 0.08 12) 2).
Proof.
  apply (proj1 (sipReturns_deposit_then_compound_below_2_53 no_toString 1000 0.08)).
  - vm_compute. reflexivity.
  - vm_compute. reflexivity.
  - lia.
Defined.

(** [2^53 + 2] is a natural number of months, and a double; for that many
    months the function returns nothing, however long the loop runs. *)
Lemma sipReturns_of_2_53_and_two_months :
  number_rank 9007199254740994 = Some (9007199254740994 * 2 ^ 1074)%Z
  /\ ~ exists (fuel : nat) (s : string),
        sipReturns_on_doubles no_toString fuel 1000 9007199254740994 0.08 = Some s.
Proof.
  split; [vm_compute; reflexivity |].
  intros (fuel & s & H). unfold sipReturns_on_doubles in H.
  change 0 with (number_of_nat 0) in H at 1.
  rewrite (js_for_loop_diverges _ 9007199254740994 eq_refl) in H. discriminate.
Qed.

(** ** Percentages *)

Section PercentProperties.

Variable Number_toString : number -> string.

(** C6: [safeWithdrawalRate] gives the same string whatever [retirementYears]
    is; the string is [annualExpenses / retirementSavings * 100] to two
    decimals, and it is ["4.00"] for savings of 1000000 and expenses of
    40000. *)
Theorem safeWithdrawalRate_ignores_retirementYears :
  forall s y1 y2 e : number,
    safeWithdrawalRate Number_toString s y1 e = safeWithdrawalRate Number_toString s y2 e
    /\ safeWithdrawalRate Number_toString s y1 e = toFixed Number_toString (e / s * 100) 2
    /\ safeWithdrawalRate Number_toString 1000000 30 40000 = "4.00"%string.
Proof.
  intros s y1 y2 e. split; [reflexivity |]. split; [reflexivity |].
  vm_compute. reflexivity.
Qed.

(** C7: [calculateDTI d i] is [d / i * 100] to two decimals, ["30.00"] for
    1500 over 5000; and when [i] equals zero the division by zero is not
    hidden: the string is ["Infinity"], ["-Infinity"] or ["NaN"]. *)
Theorem calculateDTI_percentage :
  forall d i : number,
    calculateDTI Number_toString d i = toFixed Number_toString (d / i * 100) 2
    /\ calculateDTI Number_toString 1500 5000 = "30.00"%string
    /\ ((i =? 0) = true -> not_a_finite_amount (calculateDTI Number_toString d i)).
Proof.
  intros d i. split; [reflexivity |]. split; [vm_compute; reflexivity |].
  apply percent_of_zero_income.
Qed.

End PercentProperties.

(** At an income of zero, 1500 of debt shows as ["Infinity"]. *)
Lemma calculateDTI_zero_income :
  not_a_finite_amount (calculateDTI no_toString 1500 0).
Proof.
  apply (proj2 (proj2 (calculateDTI_percentage no_toString 1500 0))).
  vm_compute. reflexivity.
Defined.

(** ** Loans, lump sums and retirement *)

Section PowProperties.

Variable Math_pow : number -> number -> number.
Variable Number_toString : number -> string.

(** C3: [calculateEMI P a y] takes the monthly rate [r = a/12/100] and
    [n = y*12] periods and prints [P * r * (1+r)^n / ((1+r)^n - 1)] to two
    decimals. When [r] is zero, where [(1+r)^n] is 1, the quotient is 0/0
    and the string is ["NaN"] for every [P]; the straight line [P / n] is
    not put in its place, which for 1200 over one year would read
    ["100.00"]. *)
Theorem calculateEMI_amortization :
  forall P a y : number,
    calculateEMI Math_pow Number_toString P a y
    = toFixed Number_toString (emi_formula Math_pow P (a / 12 / 100) (y * 12)) 2
    /\ ((a / 12 / 100 =? 0) = true -> Math_pow 1 (y * 12) = 1 ->
        calculateEMI Math_pow Number_toString P a y = "NaN"%string)
    /\ toFixed Number_toString (1200 / (1 * 12)) 2 = "100.00"%string.
Proof.
  intros P a y. split; [reflexivity |]. split; [| vm_compute; reflexivity].
  intros Hr Hpow. unfold calculateEMI. cbv zeta.
  rewrite (one_plus_zero _ Hr), Hpow. change (1 - 1) with 0.
  apply zero_over_zero. exact Hr.
Qed.

(** C2: [retirementSavingsGoal pmt y p s] takes [n = y*12] months and the
    monthly rate [r = p/12/100], and prints [FV - s] to two decimals, [FV]
    being the annuity-due value [pmt * ((1+r)^n - 1)/r * (1+r)]. The
    result is negative whenever the savings exceed [FV]; so it is with no
    year left to save, where [(1+r)^0] is 1 and [FV] is 0. *)
Theorem retirementSavingsGoal_annuity_due :
  forall pmt y p s : number,
    let n := y * 12 in
    let r := p / 12 / 100 in
    let FV := annuity_due_fv Math_pow pmt r n in
    retirementSavingsGoal Math_pow Number_toString pmt y p s
    = toFixed Number_toString (FV - s) 2
    /\ ((FV <? s) = true ->
        exists rest,
          retirementSavingsGoal Math_pow Number_toString pmt y p s = String "-" rest)
    /\ ((forall b, Math_pow b 0 = 1) ->
        retirementSavingsGoal Math_pow Number_toString 2000 0 8 100000
        = "-100000.00"%string).
Proof.
  intros pmt y p s n r FV. split; [reflexivity |]. split.
  - intros Hlt. change (retirementSavingsGoal Math_pow Number_toString pmt y p s)
      with (toFixed Number_toString (FV - s) 2).
    apply toFixed_negative. rewrite sub_neg. exact Hlt.
  - intros Hpow. unfold retirementSavingsGoal. cbv zeta.
    change (0 * 12) with 0. rewrite Hpow. vm_compute. reflexivity.
Qed.

(** C4: [lumpSumReturns] and [futureValueWithoutInflation] return the same
    string, [amount * (1 + roi)^years] to two decimals;
    [lumpSumReturnsWithInflation] and [futureValueWithInflation] return the
    same string, [amount * (1 + roi - inflationRate)^years] to two
    decimals, [inflationRate] being 0.06 when it is not supplied. *)
Theorem lump_sum_is_future_value :
  forall (amount years roi : number) (inflationRate : option number),
    lumpSumReturns Math_pow Number_toString amount years roi
    = futureValueWithoutInflation Math_pow Number_toString amount years roi
    /\ lumpSumReturns Math_pow Number_toString amount years roi
       = toFixed Number_toString (compound Math_pow amount (1 + roi) years) 2
    /\ lumpSumReturnsWithInflation Math_pow Number_toString amount years roi inflationRate
       = futureValueWithInflation Math_pow Number_toString amount years roi inflationRate
    /\ lumpSumReturnsWithInflation Math_pow Number_toString amount years roi inflationRate
       = toFixed Number_toString
           (compound Math_pow amount (1 + roi - or_default 0.06 inflationRate) years) 2
    /\ lumpSumReturnsWithInflation Math_pow Number_toString amount years roi None
       = lumpSumReturnsWithInflation Math_pow Number_toString amount years roi (Some 0.06).
Proof. intros. repeat split; reflexivity. Qed.

End PowProperties.

(** With [Math.pow] by repeated multiplication, a loan of 100000 over five
    years at no interest. *)
Lemma calculateEMI_zero_rate :
  calculateEMI pow_by_multiplication no_toString 100000 0 5 = "NaN"%string.
Proof.
  apply (proj1 (proj2 (calculateEMI_amortization
                         pow_by_multiplication no_toString 100000 0 5)));
    vm_compute; reflexivity.
Defined.

(** Savings of 4000000 against thirty years of 2000 a month at 8%, and
    savings of 100000 on the day of retirement. *)
Lemma retirementSavingsGoal_surplus :
  (exists rest,
     retirementSavingsGoal pow_by_multiplication no_toString 2000 30 8 4000000
     = String "-" rest)
  /\ retirementSavingsGoal pow_by_multiplication no_toString 2000 0 8 100000
     = "-100000.00"%string.
Proof.
  pose proof (retirementSavingsGoal_annuity_due
                pow_by_multiplication no_toString 2000 30 8 4000000) as (_ & Hneg & Hzero).
  split.
  - apply Hneg. vm_compute. reflexivity.
  - apply Hzero. intros b. vm_compute. reflexivity.
Defined.

(** ** The round trip of a future value *)

Section RoundTrip.

Variable Math_pow : number -> number -> number.
Variable Number_toString : number -> string.



End RoundTrip.




(** ** Debt ordering *)

(** C8: for debts whose keys are numbers, [debtSnowball] returns them in
    ascending order of balance and [debtAvalanche] in descending order of
    interest rate, and both keep debts of equal key in their input order;
    there the result is that of every stable sort, whatever algorithm the
    engine runs: an arrangement in the order of the keys that keeps the
    input order of equal keys is the list returned. Both return a
    permutation of the input, and both return the empty list for the empty
    list. *)
Theorem debt_orderings_sort_stably :
  forall debts : list Debt,
    (Forall numeric_balance debts -> ascending_by_balance (debtSnowball debts))
    /\ (Forall numeric_interestRate debts ->
        descending_by_interestRate (debtAvalanche debts))
    /\ (Forall numeric_balance debts -> stable_on same_balance debts (debtSnowball debts))
    /\ (Forall numeric_interestRate debts ->
        stable_on same_interestRate debts (debtAvalanche debts))
    /\ (Forall numeric_balance debts ->
        forall out : list Debt,
          Permutation debts out -> ascending_by_balance out ->
          stable_on same_balance debts out -> out = debtSnowball debts)
    /\ (Forall numeric_interestRate debts ->
        forall out : list Debt,
          Permutation debts out -> descending_by_interestRate out ->
          stable_on same_interestRate debts out -> out = debtAvalanche debts)
    /\ Permutation debts (debtSnowball debts)
    /\ Permutation debts (debtAvalanche debts)
    /\ debtSnowball [] = []
    /\ debtAvalanche [] = [].
Proof.
  intros debts.
  split; [| split; [| split; [| split; [| split; [| split; [| split; [| split]]]]]]].
  - apply debtSnowball_ascending.
  - apply debtAvalanche_descending.
  - intros _. apply debtSnowball_stable.
  - intros _. apply debtAvalanche_stable.
  - intros Hn out Hp Hs Hst. apply debtSnowball_unique; assumption.
  - intros Hn out Hp Hs Hst. apply debtAvalanche_unique; assumption.
  - symmetry. apply Array_sort_perm.
  - symmetry. apply Array_sort_perm.
  - split; reflexivity.
Qed.

(** The debts of the test suite by balance, those of the README by rate. *)
Lemma debt_orderings_of_the_examples :
  ascending_by_balance (debtSnowball snowball_debts)
  /\ descending_by_interestRate (debtAvalanche avalanche_debts).
Proof.
  split.
  - apply (proj1 (debt_orderings_sort_stably snowball_debts)).
    repeat constructor.
  - apply (proj1 (proj2 (debt_orderings_sort_stably avalanche_debts))).
    repeat constructor.
Defined.

Section Determinism.

Variable Math_pow : number -> number -> number.
Variable Number_toString : number -> string.

(** C9: every function returns identical outputs for identical inputs, the
    two orderings also when they are called a second time on the array they
    have sorted in place; and the two orderings are idempotent: sorting a
    sorted list, and any list in order already, returns it unchanged. *)
Theorem deterministic_and_idempotent :
  (deterministic (fun '(d, i) => calculateDTI Number_toString d i)
   /\ deterministic (fun '(P, a, y) => calculateEMI Math_pow Number_toString P a y)
   /\ deterministic (fun '(a, y, r) => lumpSumReturns Math_pow Number_toString a y r)
   /\ deterministic
        (fun '(a, y, r, i) => lumpSumReturnsWithInflation Math_pow Number_toString a y r i)
   /\ deterministic (fun '(x, m, r) => sipReturns Number_toString x m r)
   /\ deterministic (fun '(x, m, r, i) => sipReturnsWithInflation Number_toString x m r i)
   /\ deterministic
        (fun '(fuel, x, m, r) => sipReturns_on_doubles Number_toString fuel x m r)
   /\ deterministic
        (fun '(fuel, x, m, r, i) =>
           sipReturnsWithInflation_on_doubles Number_toString fuel x m r i)
   /\ deterministic
        (fun '(a, y, r) => futureValueWithoutInflation Math_pow Number_toString a y r)
   /\ deterministic
        (fun '(a, y, r, i) => futureValueWithInflation Math_pow Number_toString a y r i)
   /\ deterministic
        (fun '(a, y, r) => presentValueWithoutInflation Math_pow Number_toString a y r)
   /\ deterministic
        (fun '(a, y, r, i) => presentValueWithInflation Math_pow Number_toString a y r i)
   /\ deterministic
        (fun '(pmt, y, p, s) => retirementSavingsGoal Math_pow Number_toString pmt y p s)
   /\ deterministic (fun '(s, y, e) => safeWithdrawalRate Number_toString s y e)
   /\ deterministic debtSnowball
   /\ deterministic debtAvalanche)
  /\ (forall (debts : ref) (h : heap),
        let '(r1, h1) := debtSnowball_in_place debts h in
        let '(r2, h2) := debtSnowball_in_place debts h1 in
        r1 = debts /\ r2 = r1 /\ h2 r2 = h1 r1)
  /\ (forall (debts : ref) (h : heap),
        let '(r1, h1) := debtAvalanche_in_place debts h in
        let '(r2, h2) := debtAvalanche_in_place debts h1 in
        r1 = debts /\ r2 = r1 /\ h2 r2 = h1 r1)
  /\ (forall xs : list Debt,
        debtSnowball (debtSnowball xs) = debtSnowball xs
        /\ debtAvalanche (debtAvalanche xs) = debtAvalanche xs
        /\ (ascending_by_balance xs -> debtSnowball xs = xs)
        /\ (descending_by_interestRate xs -> debtAvalanche xs = xs)).
Proof.
  split; [| split; [| split]].
  - repeat split; intros x y ->; reflexivity.
  - intros debts h. unfold debtSnowball_in_place. rewrite !store_same.
    repeat split. apply Array_sort_idempotent. exact by_balance_asym.
  - intros debts h. unfold debtAvalanche_in_place. rewrite !store_same.
    repeat split. apply Array_sort_idempotent. exact by_interestRate_asym.
  - intros xs. repeat split.
    + apply Array_sort_idempotent. exact by_balance_asym.
    + apply Array_sort_idempotent. exact by_interestRate_asym.
    + intros H. apply Array_sort_in_order, ascending_in_order, H.
    + intros H. apply Array_sort_in_order, descending_in_order, H.
Qed.

End Determinism.

(** The debts of the test suite in ascending order are returned as they
    are. *)
Lemma debtSnowball_of_sorted_debts :
  debtSnowball (debtSnowball snowball_debts) = debtSnowball snowball_debts.
Proof.
  pose proof (deterministic_and_idempotent pow_by_multiplication no_toString)
    as (_ & _ & _ & H).
  destruct (H (debtSnowball snowball_debts)) as (_ & _ & Hsorted & _).
  apply Hsorted. vm_compute. repeat constructor.
Defined.

(** * Part VIII: further properties of the code

    What the functions do at the edges of their domains and how they
    compose, read off [src/index.ts]. *)

(** ** Zeros and quotients *)

Section ZerosAndQuotients.

(** A finite double is a zero or has a mantissa; a number other than zero
    has a mantissa or is an infinity. *)
Lemma is_finite_inv (x : float) :
  is_finite x = true ->
  (exists s, Prim2SF x = S754_zero s) \/ (exists s m e, Prim2SF x = S754_finite s m e).
Proof.
  unfold is_finite, is_infinity. rewrite negb_true_iff, orb_false_iff.
  rewrite <- Prim2SF_is_nan, eqb_spec, abs_spec. intros [Hn Hi].
  destruct (Prim2SF x) as [s | s | | s m e]; try discriminate; eauto.
Qed.

Lemma numeric_nonzero_inv (x : float) :
  is_nan x = false -> (x =? 0) = false ->
  (exists s, Prim2SF x = S754_infinity s) \/ (exists s m e, Prim2SF x = S754_finite s m e).
Proof.
  rewrite <- Prim2SF_is_nan, eqb_spec, Prim2SF_0. intros Hn Hz.
  destruct (Prim2SF x) as [s | s | | s m e]; try discriminate; eauto.
Qed.

Lemma Prim2SF_12 : Prim2SF 12 = S754_finite false 6755399441055744 (-49).
Proof. vm_compute. reflexivity. Qed.

Lemma zero_eqb_0 (x : float) (s : bool) : Prim2SF x = S754_zero s -> (x =? 0) = true.
Proof. intros E. rewrite eqb_spec, E, Prim2SF_0. reflexivity. Qed.

(** A zero rate is a zero rate a month. *)
Lemma zero_div_12 (r : float) : (r =? 0) = true -> (r / 12 =? 0) = true.
Proof.
  intros Hr. destruct (eqb_0_inv r Hr) as [s Er].
  apply (zero_eqb_0 _ (xorb s false)). rewrite div_spec, Er, Prim2SF_12. reflexivity.
Qed.

(** Zeros add up to a zero, and a zero times a finite number is a zero. *)
Lemma zero_add_zero (t x : float) : (t =? 0) = true -> (x =? 0) = true -> (t + x =? 0) = true.
Proof.
  intros Ht Hx. destruct (eqb_0_inv t Ht) as [st Et]. destruct (eqb_0_inv x Hx) as [sx Ex].
  rewrite eqb_spec, add_spec, Et, Ex, Prim2SF_0. destruct st, sx; reflexivity.
Qed.

Lemma zero_mul_finite (t c : float) :
  (t =? 0) = true -> is_finite c = true -> (t * c =? 0) = true.
Proof.
  intros Ht Hc. destruct (eqb_0_inv t Ht) as [st Et].
  rewrite eqb_spec, mul_spec, Et, Prim2SF_0.
  destruct (is_finite_inv c Hc) as [[s ->] | (s & m & e & ->)]; reflexivity.
Qed.

(** Either zero prints as [0.00]. *)
Lemma toFixed_zero (N : number -> string) (t : float) :
  (t =? 0) = true -> toFixed N t 2 = "0.00"%string.
Proof.
  intros Ht. destruct (eqb_0_inv t Ht) as [st Et]. unfold toFixed. rewrite Et. reflexivity.
Qed.

(** A quotient by zero is an infinity or NaN. *)
Lemma over_zero (N : number -> string) (x : float) :
  not_a_finite_amount (toFixed N (x / 0) 2).
Proof.
  unfold toFixed, not_a_finite_amount. rewrite div_spec, Prim2SF_0.
  destruct (Prim2SF x) as [s | s | | s m e]; try destruct s; cbn; auto.
Qed.

(** Zero over a number other than zero, as a percentage. *)
Lemma percent_of_zero (N : number -> string) (d i : float) :
  (d =? 0) = true -> is_nan i = false -> (i =? 0) = false ->
  toFixed N (d / i * 100) 2 = "0.00"%string.
Proof.
  intros Hd Hn Hi. apply toFixed_zero. destruct (eqb_0_inv d Hd) as [sd Ed].
  rewrite eqb_spec, mul_spec, div_spec, Ed, Prim2SF_0, Prim2SF_100.
  destruct (numeric_nonzero_inv i Hn Hi) as [[s ->] | (s & m & e & ->)]; reflexivity.
Qed.

End ZerosAndQuotients.

Section CalculatorEdges.

Variable Math_pow : number -> number -> number.
Variable Number_toString : number -> string.

(** X1: an inflation rate of zero changes nothing: each inflation-adjusted
    calculator then returns the string of its plain counterpart. *)
Theorem zero_inflation_is_no_adjustment :
  forall (amount years roi : number) (months : nat),
    lumpSumReturnsWithInflation Math_pow Number_toString amount years roi (Some 0)
    = lumpSumReturns Math_pow Number_toString amount years roi
    /\ futureValueWithInflation Math_pow Number_toString amount years roi (Some 0)
       = futureValueWithoutInflation Math_pow Number_toString amount years roi
    /\ presentValueWithInflation Math_pow Number_toString amount years roi (Some 0)
       = presentValueWithoutInflation Math_pow Number_toString amount years roi
    /\ sipReturnsWithInflation Number_toString amount months roi (Some 0)
       = sipReturns Number_toString amount months roi.
Proof.
  intros amount years roi months.
  unfold lumpSumReturnsWithInflation, futureValueWithInflation, presentValueWithInflation,
    sipReturnsWithInflation, lumpSumReturns, futureValueWithoutInflation,
    presentValueWithoutInflation, sipReturns.
  cbn [or_default]. rewrite !sub_zero. repeat split; reflexivity.
Qed.

(** X2: over no time at all nothing grows: with [Math.pow b 0 = 1], the four
    future-value calculators print the amount they were given, whatever the
    rates are. *)
Theorem no_growth_in_zero_years :
  (forall b, Math_pow b 0 = 1) ->
  forall (amount roi : number) (inflationRate : option number),
    lumpSumReturns Math_pow Number_toString amount 0 roi
    = toFixed Number_toString amount 2
    /\ futureValueWithoutInflation Math_pow Number_toString amount 0 roi
       = toFixed Number_toString amount 2
    /\ lumpSumReturnsWithInflation Math_pow Number_toString amount 0 roi inflationRate
       = toFixed Number_toString amount 2
    /\ futureValueWithInflation Math_pow Number_toString amount 0 roi inflationRate
       = toFixed Number_toString amount 2.
Proof.
  intros Hpow amount roi inflationRate.
  unfold lumpSumReturns, futureValueWithoutInflation, lumpSumReturnsWithInflation,
    futureValueWithInflation.
  cbv zeta. rewrite !Hpow, !mul_one. repeat split; reflexivity.
Qed.

(** X3: nor is anything discounted over no time: with [Math.pow b 0 = 1],
    the two present-value calculators print the amount they were given. *)
Theorem no_discount_in_zero_years :
  (forall b, Math_pow b 0 = 1) ->
  forall (amount roi : number) (inflationRate : option number),
    presentValueWithoutInflation Math_pow Number_toString amount 0 roi
    = toFixed Number_toString amount 2
    /\ presentValueWithInflation Math_pow Number_toString amount 0 roi inflationRate
       = toFixed Number_toString amount 2.
Proof.
  intros Hpow amount roi inflationRate.
  unfold presentValueWithoutInflation, presentValueWithInflation.
  cbv zeta. rewrite !Hpow, !div_one. split; reflexivity.
Qed.

(** X4: no argument is validated. An amount that is NaN comes out of the four
    future-value calculators as the string ["NaN"], whatever [Math.pow]
    returns. *)
Theorem NaN_amount_grows_to_NaN :
  forall (years roi : number) (inflationRate : option number),
    lumpSumReturns Math_pow Number_toString nan years roi = "NaN"%string
    /\ lumpSumReturnsWithInflation Math_pow Number_toString nan years roi inflationRate
       = "NaN"%string
    /\ futureValueWithoutInflation Math_pow Number_toString nan years roi = "NaN"%string
    /\ futureValueWithInflation Math_pow Number_toString nan years roi inflationRate
       = "NaN"%string.
Proof.
  intros years roi inflationRate.
  unfold lumpSumReturns, lumpSumReturnsWithInflation, futureValueWithoutInflation,
    futureValueWithInflation.
  cbv zeta. rewrite !nan_mul_l. repeat split; reflexivity.
Qed.

(** X5: likewise a NaN amount to discount, a NaN principal of a loan, and NaN
    expenses or NaN savings of a retirement plan all print as ["NaN"]. *)
Theorem NaN_amount_prints_NaN :
  forall (a b c : number) (inflationRate : option number),
    presentValueWithoutInflation Math_pow Number_toString nan a b = "NaN"%string
    /\ presentValueWithInflation Math_pow Number_toString nan a b inflationRate
       = "NaN"%string
    /\ calculateEMI Math_pow Number_toString nan a b = "NaN"%string
    /\ retirementSavingsGoal Math_pow Number_toString nan a b c = "NaN"%string
    /\ retirementSavingsGoal Math_pow Number_toString a b c nan = "NaN"%string.
Proof.
  intros a b c inflationRate.
  unfold presentValueWithoutInflation, presentValueWithInflation, calculateEMI,
    retirementSavingsGoal.
  cbv zeta. rewrite !nan_div_l, !nan_mul_l, !nan_div_l, !nan_sub_l, !nan_sub_r.
  repeat split; reflexivity.
Qed.

(** X6: at a return rate of zero [retirementSavingsGoal] divides zero by
    zero: with [Math.pow 1 n = 1] the string is ["NaN"] for every expense
    and every amount of savings, not the plain sum of the contributions. *)
Theorem retirementSavingsGoal_zero_rate :
  forall pmt y p s : number,
    (p / 12 / 100 =? 0) = true -> Math_pow 1 (y * 12) = 1 ->
    retirementSavingsGoal Math_pow Number_toString pmt y p s = "NaN"%string.
Proof.
  intros pmt y p s Hr Hpow. unfold retirementSavingsGoal. cbv zeta.
  rewrite (one_plus_zero _ Hr), Hpow. change (1 - 1) with 0.
  rewrite (zero_div_zero 0 _ eq_refl Hr), nan_mul_r, nan_mul_l, nan_sub_l. reflexivity.
Qed.

(** X7: a loan over no time divides by zero: with [Math.pow b 0 = 1],
    [calculateEMI P a 0] is ["Infinity"], ["-Infinity"] or ["NaN"]. *)
Theorem calculateEMI_zero_tenure :
  (forall b, Math_pow b 0 = 1) ->
  forall P a : number,
    not_a_finite_amount (calculateEMI Math_pow Number_toString P a 0).
Proof.
  intros Hpow P a. unfold calculateEMI. cbv zeta.
  change (0 * 12) with 0. rewrite !Hpow. change (1 - 1) with 0. apply over_zero.
Qed.

(** X8: no debt against an income that is a number other than zero is
    ["0.00"], also when the zero or the income is negative; so is a withdrawal
    rate for no expenses. *)
Theorem nothing_owed_is_zero_percent :
  forall d i y : number,
    (d =? 0) = true -> is_nan i = false -> (i =? 0) = false ->
    calculateDTI Number_toString d i = "0.00"%string
    /\ safeWithdrawalRate Number_toString i y d = "0.00"%string.
Proof.
  intros d i y Hd Hn Hi. unfold calculateDTI, safeWithdrawalRate. cbv zeta.
  split; apply percent_of_zero; assumption.
Qed.

End CalculatorEdges.

(** With [Math.pow] by repeated multiplication. *)
Lemma no_growth_of_1000_in_zero_years :
  lumpSumReturns pow_by_multiplication no_toString 1000 0 0.08
  = toFixed no_toString 1000 2
  /\ futureValueWithoutInflation pow_by_multiplication no_toString 1000 0 0.08
     = toFixed no_toString 1000 2
  /\ lumpSumReturnsWithInflation pow_by_multiplication no_toString 1000 0 0.08 None
     = toFixed no_toString 1000 2
  /\ futureValueWithInflation pow_by_multiplication no_toString 1000 0 0.08 None
     = toFixed no_toString 1000 2.
Proof.
  apply (no_growth_in_zero_years pow_by_multiplication no_toString).
  intros b. vm_compute. reflexivity.
Defined.

Lemma no_discount_of_1000_in_zero_years :
  presentValueWithoutInflation pow_by_multiplication no_toString 1000 0 0.08
  = toFixed no_toString 1000 2
  /\ presentValueWithInflation pow_by_multiplication no_toString 1000 0 0.08 None
     = toFixed no_toString 1000 2.
Proof.
  apply (no_discount_in_zero_years pow_by_multiplication no_toString).
  intros b. vm_compute. reflexivity.
Defined.

Lemma retirementSavingsGoal_without_return :
  retirementSavingsGoal pow_by_multiplication no_toString 2000 30 0 100000 = "NaN"%string.
Proof.
  apply (retirementSavingsGoal_zero_rate pow_by_multiplication no_toString 2000 30 0 100000);
    vm_compute; reflexivity.
Defined.

Lemma calculateEMI_of_no_tenure :
  not_a_finite_amount (calculateEMI pow_by_multiplication no_toString 100000 8 0).
Proof.
  apply (calculateEMI_zero_tenure pow_by_multiplication no_toString).
  intros b. vm_compute. reflexivity.
Defined.

Lemma nothing_owed_on_5000 :
  calculateDTI no_toString 0 5000 = "0.00"%string
  /\ safeWithdrawalRate no_toString 5000 30 0 = "0.00"%string.
Proof.
  apply (nothing_owed_is_zero_percent no_toString 0 5000 30); vm_compute; reflexivity.
Defined.

(** ** The SIP family at its edges *)

Section SipEdges.

Variable Number_toString : number -> string.

Lemma sip_loop_of_nothing (x r : number) (m : nat) :
  (x =? 0) = true -> is_finite (1 + r / 12) = true ->
  (sip_recurrence x r m =? 0) = true.
Proof.
  intros Hx Hc. induction m as [| m IH]; [reflexivity |].
  cbn [sip_recurrence]. apply zero_mul_finite; [| exact Hc].
  apply zero_add_zero; assumption.
Qed.

Lemma sip_loop_without_return (x r : number) (m : nat) :
  (r =? 0) = true -> sip_recurrence x r m = deposits x m.
Proof.
  intros Hr. induction m as [| m IH]; [reflexivity |].
  cbn [sip_recurrence deposits].
  rewrite (one_plus_zero _ (zero_div_12 r Hr)), mul_one, IH. reflexivity.
Qed.

Lemma sip_loop_of_NaN (r : number) (m : nat) : sip_recurrence nan r (S m) = nan.
Proof. cbn [sip_recurrence]. rewrite nan_add_r, nan_mul_l. reflexivity. Qed.

(** For [k < months <= k + 1] the loop makes [k + 1] passes of the
    recurrence. *)
Lemma sipReturns_on_doubles_passes (x months r : number) (k fuel : nat) :
  (Z.of_nat (S k) < 2 ^ 53)%Z ->
  (number_of_nat k <? months) = true -> (months <=? number_of_nat (S k)) = true ->
  (S k < fuel)%nat ->
  sipReturns_on_doubles Number_toString fuel x months r
  = Some (toFixed Number_toString (sip_recurrence x r (S k)) 2).
Proof.
  intros Hk Hlo Hhi Hfuel. unfold sipReturns_on_doubles.
  change 0 with (number_of_nat 0) at 1.
  rewrite (js_for_loop_rounds_up _ months k Hk Hlo Hhi fuel 0) by lia.
  rewrite Nat.sub_0_r, <- for_loop_iter, sip_loop_recurrence. reflexivity.
Qed.

(** Whatever the loop returns, it has made some number of passes. *)
Lemma js_for_loop_some {T : Type} (body : T -> T) (n : number) (fuel : nat) :
  forall (i : number) (s t : T),
    js_for_loop fuel i n body s = Some t -> exists j : nat, t = Nat.iter j body s.
Proof.
  induction fuel as [| fuel IH]; intros i s t H; cbn [js_for_loop] in H; [discriminate |].
  destruct (i <? n).
  - destruct (IH _ _ _ H) as [j ->]. exists (S j). rewrite Nat.iter_succ_r. reflexivity.
  - injection H as <-. exists O. reflexivity.
Qed.

Lemma sipReturns_on_doubles_some (x months r : number) (fuel : nat) (out : string) :
  sipReturns_on_doubles Number_toString fuel x months r = Some out ->
  exists j : nat, out = toFixed Number_toString (sip_recurrence x r j) 2.
Proof.
  unfold sipReturns_on_doubles. intros H.
  destruct (js_for_loop fuel 0 months _ 0) as [t |] eqn:E; [| discriminate].
  injection H as <-. destruct (js_for_loop_some _ _ _ _ _ _ E) as [j ->].
  exists j. rewrite <- for_loop_iter, sip_loop_recurrence. reflexivity.
Qed.

(** X9: a NaN on either side of a ratio prints as ["NaN"]; and a NaN payment
    makes the loop of the two SIP calculators return ["NaN"] after one pass
    or more, that is for [k < months <= k + 1] with [k + 1] below [2^53]. *)
Theorem NaN_ratio_or_payment_prints_NaN :
  forall x y : number,
    calculateDTI Number_toString nan x = "NaN"%string
    /\ calculateDTI Number_toString x nan = "NaN"%string
    /\ safeWithdrawalRate Number_toString nan y x = "NaN"%string
    /\ safeWithdrawalRate Number_toString x y nan = "NaN"%string
    /\ (forall (months : number) (k fuel : nat) (i : option number),
          (Z.of_nat (S k) < 2 ^ 53)%Z ->
          (number_of_nat k <? months) = true -> (months <=? number_of_nat (S k)) = true ->
          (S k < fuel)%nat ->
          sipReturns_on_doubles Number_toString fuel nan months x = Some "NaN"%string
          /\ sipReturnsWithInflation_on_doubles Number_toString fuel nan months x i
             = Some "NaN"%string).
Proof.
  intros x y. unfold calculateDTI, safeWithdrawalRate.
  rewrite !nan_div_l, !nan_div_r, !nan_mul_l. repeat split; try reflexivity.
  - rewrite (sipReturns_on_doubles_passes nan months x k fuel) by assumption.
    rewrite sip_loop_of_NaN. reflexivity.
  - change (sipReturnsWithInflation_on_doubles Number_toString fuel nan months x i)
      with (sipReturns_on_doubles Number_toString fuel nan months
              (x - or_default default_inflationRate i)).
    rewrite (sipReturns_on_doubles_passes nan months _ k fuel) by assumption.
    rewrite sip_loop_of_NaN. reflexivity.
Qed.

(** X10: paying nothing accumulates nothing. When the payment is zero and
    the monthly factor [1 + r/12] is finite, whatever the loop of
    [sipReturns] returns is ["0.00"], whatever [months] is; and it does
    return ["0.00"] for [k < months <= k + 1] with [k + 1] below [2^53]. *)
Theorem sipReturns_of_no_payment :
  forall x r : number,
    (x =? 0) = true -> is_finite (1 + r / 12) = true ->
    (forall (months : number) (fuel : nat) (out : string),
        sipReturns_on_doubles Number_toString fuel x months r = Some out ->
        out = "0.00"%string)
    /\ (forall (months : number) (k fuel : nat),
          (Z.of_nat (S k) < 2 ^ 53)%Z ->
          (number_of_nat k <? months) = true -> (months <=? number_of_nat (S k)) = true ->
          (S k < fuel)%nat ->
          sipReturns_on_doubles Number_toString fuel x months r = Some "0.00"%string).
Proof.
  intros x r Hx Hc. split.
  - intros months fuel out H. destruct (sipReturns_on_doubles_some _ _ _ _ _ H) as [j ->].
    apply toFixed_zero, sip_loop_of_nothing; assumption.
  - intros months k fuel Hk Hlo Hhi Hfuel.
    rewrite (sipReturns_on_doubles_passes x months r k fuel) by assumption.
    f_equal. apply toFixed_zero, sip_loop_of_nothing; assumption.
Qed.

(** X11: at a return of zero the factor of every month is exactly 1, so
    the loop of [sipReturns] returns the payments added up one after the
    other, [k + 1] of them for [k < months <= k + 1] with [k + 1] below
    [2^53]. *)
Theorem sipReturns_without_return :
  forall (x months r : number) (k fuel : nat),
    (r =? 0) = true ->
    (Z.of_nat (S k) < 2 ^ 53)%Z ->
    (number_of_nat k <? months) = true -> (months <=? number_of_nat (S k)) = true ->
    (S k < fuel)%nat ->
    sipReturns_on_doubles Number_toString fuel x months r
    = Some (toFixed Number_toString (deposits x (S k)) 2).
Proof.
  intros x months r k fuel Hr Hk Hlo Hhi Hfuel.
  rewrite (sipReturns_on_doubles_passes x months r k fuel) by assumption.
  rewrite (sip_loop_without_return x r (S k) Hr). reflexivity.
Qed.

(** X12: the loop is not entered when [months] is zero, negative or NaN:
    the two SIP calculators then return ["0.00"] at once. *)
Theorem sipReturns_of_no_month :
  forall (fuel : nat) (x months r : number) (i : option number),
    (0 <? months) = false ->
    sipReturns_on_doubles Number_toString (S fuel) x months r = Some "0.00"%string
    /\ sipReturnsWithInflation_on_doubles Number_toString (S fuel) x months r i
       = Some "0.00"%string.
Proof.
  intros fuel x months r i Hm.
  unfold sipReturns_on_doubles, sipReturnsWithInflation_on_doubles.
  cbn [js_for_loop]. rewrite Hm. split; reflexivity.
Qed.

(** X13: a number of months that is not whole counts as the next whole
    number: for [k < months <= k + 1] the loop makes [k + 1] passes. *)
Theorem sipReturns_rounds_months_up :
  forall (fuel : nat) (x months r : number) (k : nat),
    (Z.of_nat (S k) < 2 ^ 53)%Z ->
    (number_of_nat k <? months) = true -> (months <=? number_of_nat (S k)) = true ->
    (S k < fuel)%nat ->
    sipReturns_on_doubles Number_toString fuel x months r
    = Some (sipReturns Number_toString x (S k) r).
Proof.
  intros fuel x months r k Hk Hlo Hhi Hfuel. unfold sipReturns_on_doubles, sipReturns.
  change 0 with (number_of_nat 0) at 1.
  rewrite (js_for_loop_rounds_up _ months k Hk Hlo Hhi fuel 0) by lia.
  rewrite for_loop_iter, Nat.sub_0_r. reflexivity.
Qed.

(** X14: the counter of the loop is a double, and counting by 1 stops at
    [2^53]. For [months] above [2^53], [Infinity] among them, the test
    [i < months] never fails: the two SIP calculators never return. *)
Theorem sipReturns_never_returns :
  forall (x months r : number) (i : option number),
    (9007199254740992 <? months) = true ->
    forall fuel : nat,
      sipReturns_on_doubles Number_toString fuel x months r = None
      /\ sipReturnsWithInflation_on_doubles Number_toString fuel x months r i = None.
Proof.
  intros x months r i Hm fuel.
  unfold sipReturns_on_doubles, sipReturnsWithInflation_on_doubles. cbv zeta.
  change 0 with (number_of_nat 0) at 1 3.
  rewrite !(js_for_loop_diverges _ months Hm). split; reflexivity.
Qed.

End SipEdges.

(** A year of twelve months. *)
Lemma NaN_payment_over_a_year :
  sipReturns_on_doubles no_toString 13 nan 12 0.08 = Some "NaN"%string
  /\ sipReturnsWithInflation_on_doubles no_toString 13 nan 12 0.08 None = Some "NaN"%string.
Proof.
  apply (proj2 (proj2 (proj2 (proj2
           (NaN_ratio_or_payment_prints_NaN no_toString 0.08 0)))) 12 11%nat 13%nat None);
    [vm_compute; reflexivity | vm_compute; reflexivity | vm_compute; reflexivity | lia].
Defined.

Lemma sipReturns_of_no_payment_in_a_year :
  sipReturns_on_doubles no_toString 13 0 12 0.08 = Some "0.00"%string.
Proof.
  apply (proj2 (sipReturns_of_no_payment no_toString 0 0.08 eq_refl eq_refl) 12 11%nat 13%nat);
    [vm_compute; reflexivity | vm_compute; reflexivity | vm_compute; reflexivity | lia].
Defined.

Lemma sipReturns_of_a_year_without_return :
  sipReturns_on_doubles no_toString 13 1000 12 0
  = Some (toFixed no_toString (deposits 1000 12) 2).
Proof.
  apply (sipReturns_without_return no_toString 1000 12 0 11%nat 13%nat);
    [vm_compute; reflexivity | vm_compute; reflexivity | vm_compute; reflexivity
    | vm_compute; reflexivity | lia].
Defined.

Lemma sipReturns_of_negative_months :
  sipReturns_on_doubles no_toString 1 1000 (-3) 0.08 = Some "0.00"%string
  /\ sipReturnsWithInflation_on_doubles no_toString 1 1000 (-3) 0.08 None
     = Some "0.00"%string.
Proof.
  apply (sipReturns_of_no_month no_toString 0 1000 (-3) 0.08 None).
  vm_compute. reflexivity.
Defined.

Lemma sipReturns_of_two_months_and_a_half :
  sipReturns_on_doubles no_toString 4 1000 2.5 0.08
  = Some (sipReturns no_toString 1000 3 0.08).
Proof.
  apply (sipReturns_rounds_months_up no_toString 4 1000 2.5 0.08 2);
    [vm_compute; reflexivity | vm_compute; reflexivity | vm_compute; reflexivity | lia].
Defined.

Lemma sipReturns_of_infinitely_many_months :
  sipReturns_on_doubles no_toString 1000 1000 infinity 0.08 = None
  /\ sipReturnsWithInflation_on_doubles no_toString 1000 1000 infinity 0.08 None = None.
Proof.
  apply (sipReturns_never_returns no_toString 1000 infinity 0.08 None).
  vm_compute. reflexivity.
Defined.

(** ** More on the debt orderings *)

Section FilterFacts.

Context {A : Type}.

Lemma Permutation_filter (p : A -> bool) (l l' : list A) :
  Permutation l l' -> Permutation (filter p l) (filter p l').
Proof.
  induction 1 as [| x l l' _ IH | x y l | l l' l'' _ IH1 _ IH2]; cbn [filter].
  - constructor.
  - destruct (p x); [constructor |]; exact IH.
  - destruct (p x), (p y); try reflexivity. constructor.
  - exact (perm_trans IH1 IH2).
Qed.

(** Of elements that exclude one another a filter keeps one at most. *)
Lemma filter_at_most_one (p : A -> bool) (R : A -> A -> Prop) (l : list A) :
  (forall a b, R a b -> p a = true -> p b = true -> False) ->
  ForallOrdPairs R l -> (List.length (filter p l) <= 1)%nat.
Proof.
  intros HR. induction 1 as [| x l Hx Hl IH]; cbn [filter]; [cbn; lia |].
  destruct (p x) eqn:Px; [| exact IH].
  assert (E : filter p l = []).
  { clear IH Hl. induction l as [| y l IHl]; [reflexivity |].
    inversion Hx as [| ? ? Hxy Hxl]; subst. cbn [filter].
    destruct (p y) eqn:Py; [exfalso; exact (HR x y Hxy Px Py) | auto]. }
  rewrite E. cbn. lia.
Qed.

Lemma Permutation_at_most_one (l l' : list A) :
  Permutation l l' -> (List.length l <= 1)%nat -> l' = l.
Proof.
  intros Hp Hl. destruct l as [| x [| y l]]; cbn in Hl; try lia.
  - apply Permutation_nil, Hp.
  - apply Permutation_length_1_inv, Hp.
Qed.

End FilterFacts.

Section DebtOrderFurther.

Lemma eqb_eqb_trans (x y k : float) :
  (x =? k) = true -> (y =? k) = true -> (x =? y) = true.
Proof.
  rewrite !eqb_rank.
  destruct (number_rank x), (number_rank y), (number_rank k); try discriminate.
  rewrite !Z.eqb_eq. lia.
Qed.

Lemma leb_refl (x : float) : is_nan x = false -> (x <=? x) = true.
Proof.
  intros H. rewrite leb_rank, number_rank_numeric by exact H. apply Z.leb_refl.
Qed.

Lemma ltb_of_NaN (x y : float) : is_nan x = true -> (x <? y) = false.
Proof. intros H. rewrite ltb_rank. unfold number_rank at 1. rewrite H. reflexivity. Qed.

(** With distinct keys, the debts of one key are the same in every
    arrangement of the list. *)
Lemma distinct_filter (key : Debt -> number) (l l' : list Debt) (k : number) :
  ForallOrdPairs (fun a b => (key a =? key b) = false) l -> Permutation l l' ->
  filter (fun d => key d =? k) l' = filter (fun d => key d =? k) l.
Proof.
  intros Hd Hp. apply Permutation_at_most_one.
  - apply Permutation_filter, Hp.
  - apply (filter_at_most_one _ _ l) with (2 := Hd). intros a b Hab Ha Hb.
    rewrite (eqb_eqb_trans _ _ _ Ha Hb) in Hab. discriminate.
Qed.

Lemma distinct_balances_perm (l l' : list Debt) :
  Forall numeric_balance l -> distinct_balances l -> Permutation l l' ->
  debtSnowball l' = debtSnowball l.
Proof.
  intros Hn Hd Hp.
  assert (Hn' : Forall numeric_balance l') by exact (Permutation_Forall Hp Hn).
  apply debtSnowball_unique.
  - exact Hn.
  - apply (perm_trans Hp). symmetry. apply Array_sort_perm.
  - apply debtSnowball_ascending, Hn'.
  - intros k. rewrite (debtSnowball_stable l' k).
    exact (distinct_filter balance l l' k Hd Hp).
Qed.

Lemma distinct_interestRates_perm (l l' : list Debt) :
  Forall numeric_interestRate l -> distinct_interestRates l -> Permutation l l' ->
  debtAvalanche l' = debtAvalanche l.
Proof.
  intros Hn Hd Hp.
  assert (Hn' : Forall numeric_interestRate l') by exact (Permutation_Forall Hp Hn).
  apply debtAvalanche_unique.
  - exact Hn.
  - apply (perm_trans Hp). symmetry. apply Array_sort_perm.
  - apply debtAvalanche_descending, Hn'.
  - intros k. rewrite (debtAvalanche_stable l' k).
    exact (distinct_filter (fun d => ToNumber (interestRate d)) l l' k Hd Hp).
Qed.

(** X15: the debt to pay first. The first debt [debtSnowball] returns has the
    least balance of all, and the first [debtAvalanche] returns the greatest
    interest rate of all, the keys being numbers. *)
Theorem first_debt_is_extreme :
  forall (debts : list Debt) (first : Debt) (rest : list Debt),
    (Forall numeric_balance debts -> debtSnowball debts = first :: rest ->
     forall d, In d debts -> (balance first <=? balance d) = true)
    /\ (Forall numeric_interestRate debts -> debtAvalanche debts = first :: rest ->
        forall d, In d debts ->
          (ToNumber (interestRate d) <=? ToNumber (interestRate first)) = true).
Proof.
  intros debts first rest. split; intros Hn Hs d Hd.
  - pose proof (debtSnowball_ascending debts Hn) as Ha.
    pose proof (debtSnowball_numeric debts Hn) as Hn'.
    assert (Hin : In d (debtSnowball debts)).
    { apply (Permutation_in d (Permutation_sym (Array_sort_perm by_balance debts))), Hd. }
    rewrite Hs in Ha, Hn', Hin. apply StronglySorted_inv in Ha as [_ Ha].
    destruct Hin as [<- | Hin].
    + apply leb_refl. inversion Hn'; assumption.
    + rewrite Forall_forall in Ha. exact (Ha d Hin).
  - pose proof (debtAvalanche_descending debts Hn) as Ha.
    pose proof (debtAvalanche_numeric debts Hn) as Hn'.
    assert (Hin : In d (debtAvalanche debts)).
    { apply (Permutation_in d (Permutation_sym (Array_sort_perm by_interestRate debts))), Hd. }
    rewrite Hs in Ha, Hn', Hin. apply StronglySorted_inv in Ha as [_ Ha].
    destruct Hin as [<- | Hin].
    + apply leb_refl. inversion Hn'; assumption.
    + rewrite Forall_forall in Ha. exact (Ha d Hin).
Qed.

(** X16: when no two debts have equal keys, the order in which the debts are
    given does not matter: every arrangement of the list is sorted to the
    same result. So [debtSnowball] undoes what [debtAvalanche] did to the
    order, and the other way round. *)
Theorem distinct_debts_in_any_order :
  forall debts debts' : list Debt,
    Permutation debts debts' ->
    (Forall numeric_balance debts -> distinct_balances debts ->
     debtSnowball debts' = debtSnowball debts
     /\ debtSnowball (debtAvalanche debts) = debtSnowball debts)
    /\ (Forall numeric_interestRate debts -> distinct_interestRates debts ->
        debtAvalanche debts' = debtAvalanche debts
        /\ debtAvalanche (debtSnowball debts) = debtAvalanche debts).
Proof.
  intros debts debts' Hp. split; intros Hn Hd; split.
  - exact (distinct_balances_perm debts debts' Hn Hd Hp).
  - apply distinct_balances_perm; [exact Hn | exact Hd |].
    symmetry. apply Array_sort_perm.
  - exact (distinct_interestRates_perm debts debts' Hn Hd Hp).
  - apply distinct_interestRates_perm; [exact Hn | exact Hd |].
    symmetry. apply Array_sort_perm.
Qed.

(** X17: the result does not depend on the sorting algorithm of the engine.
    Any arrangement of the debts that is in the order of the keys and keeps
    debts of equal key in their input order is the list [debtSnowball]
    returns, and likewise for [debtAvalanche]. *)
Theorem stable_ordering_is_unique :
  forall debts out : list Debt,
    Permutation debts out ->
    (Forall numeric_balance debts ->
     ascending_by_balance out -> stable_on same_balance debts out ->
     out = debtSnowball debts)
    /\ (Forall numeric_interestRate debts ->
        descending_by_interestRate out -> stable_on same_interestRate debts out ->
        out = debtAvalanche debts).
Proof.
  intros debts out Hp. split; intros Hn Hs Hst.
  - apply debtSnowball_unique; assumption.
  - apply debtAvalanche_unique; assumption.
Qed.

(** X18: debts without an interest rate cannot be compared: the comparator
    returns NaN for them, which the sort takes for a tie. A list in which no
    debt has a rate, or every rate is NaN, comes back from [debtAvalanche]
    in its input order. *)
Theorem debtAvalanche_without_rates :
  forall debts : list Debt,
    Forall no_interestRate debts -> debtAvalanche debts = debts.
Proof.
  intros debts Hn. apply Array_sort_in_order.
  induction Hn as [| a l Ha Hl IH]; constructor; [exact IH |].
  destruct l as [| b l]; constructor.
  unfold in_order. rewrite sorts_after_by_interestRate. apply ltb_of_NaN, Ha.
Qed.

End DebtOrderFurther.

Lemma first_debt_of_the_examples :
  (forall d, In d snowball_debts -> (2500 <=? balance d) = true)
  /\ (forall d, In d avalanche_debts -> (ToNumber (interestRate d) <=? 0.18) = true).
Proof.
  split.
  - apply (proj1 (first_debt_is_extreme snowball_debts
                    (mkDebt "Credit Card B" 2500 None)
                    [mkDebt "Credit Card A" 5000 None; mkDebt "Personal Loan" 10000 None])).
    + repeat constructor.
    + reflexivity.
  - apply (proj2 (first_debt_is_extreme avalanche_debts
                    (mkDebt "Credit Card" 5000 (Some 0.18))
                    [mkDebt "Car Loan" 10000 (Some 0.08);
                     mkDebt "Student Loan" 15000 (Some 0.06)])).
    + repeat constructor.
    + reflexivity.
Defined.

Lemma debts_of_the_examples_reversed :
  debtSnowball (rev snowball_debts) = debtSnowball snowball_debts
  /\ debtAvalanche (rev avalanche_debts) = debtAvalanche avalanche_debts.
Proof.
  split.
  - apply (proj1 (distinct_debts_in_any_order snowball_debts (rev snowball_debts)
                    (Permutation_rev snowball_debts))).
    + repeat constructor.
    + repeat constructor.
  - apply (proj2 (distinct_debts_in_any_order avalanche_debts (rev avalanche_debts)
                    (Permutation_rev avalanche_debts))).
    + repeat constructor.
    + repeat constructor.
Defined.

Lemma stable_ordering_of_the_examples :
  [ mkDebt "Credit Card B" 2500 None;
    mkDebt "Credit Card A" 5000 None;
    mkDebt "Personal Loan" 10000 None ] = debtSnowball snowball_debts.
Proof.
  refine (proj1 (stable_ordering_is_unique snowball_debts _ _) _ _ _).
  - unfold snowball_debts. apply perm_swap.
  - repeat constructor.
  - repeat constructor.
  - intros k. unfold snowball_debts, same_balance. cbn [filter balance].
    destruct (2500 =? k) eqn:E1, (5000 =? k) eqn:E2; try reflexivity.
    exfalso. assert (H : (2500 =? 5000) = true) by exact (eqb_eqb_trans _ _ _ E1 E2).
    vm_compute in H. discriminate.
Defined.

Lemma debtAvalanche_of_the_snowball_debts :
  debtAvalanche snowball_debts = snowball_debts.
Proof.
  apply (debtAvalanche_without_rates snowball_debts). repeat constructor.
Defined.

(** ** The shape of the printed amounts *)

Section PrintedShape.

Variable Number_toString : number -> string.

Lemma length_append (a b : string) :
  String.length (a ++ b) = (String.length a + String.length b)%nat.
Proof. induction a as [| c a IH]; cbn; [reflexivity | rewrite IH; reflexivity]. Qed.

Lemma append_assoc (a b c : string) : ((a ++ b) ++ c = a ++ (b ++ c))%string.
Proof. induction a as [| x a IH]; cbn; [reflexivity | rewrite IH; reflexivity]. Qed.

Lemma length_zeros (k : nat) : String.length (zeros k) = k.
Proof. induction k as [| k IH]; cbn; [reflexivity | rewrite IH; reflexivity]. Qed.

Lemma length_substring (s : string) :
  forall n m : nat,
    (n + m <= String.length s)%nat -> String.length (substring n m s) = m.
Proof.
  induction s as [| c s IH]; intros n m H; cbn in H.
  - assert (n = O) by lia. assert (m = O) by lia. subst. reflexivity.
  - destruct n as [| n]; destruct m as [| m]; cbn [substring String.length].
    + reflexivity.
    + rewrite IH by (cbn; lia). reflexivity.
    + apply IH. lia.
    + apply IH. lia.
Qed.

(** The point always has [f] characters after it. *)
Lemma place_point_shape (m : string) (f : nat) :
  exists whole cents : string,
    place_point m (S f) = (whole ++ "." ++ cents)%string /\ String.length cents = S f.
Proof.
  unfold place_point.
  set (m' := if (String.length m <=? S f)%nat
             then (zeros (S f + 1 - String.length m) ++ m)%string else m).
  assert (Hlen : (S f < String.length m')%nat).
  { unfold m'. destruct (Nat.leb_spec (String.length m) (S f)) as [H | H].
    - rewrite length_append, length_zeros. lia.
    - exact H. }
  eexists _, _. split; [reflexivity |]. apply length_substring. lia.
Qed.

Lemma Prim2SF_1e21 : number_rank 1e21 = Some (10 ^ 21 * 2 ^ 1074)%Z.
Proof. vm_compute. reflexivity. Qed.

Lemma below_1e21 (m : positive) (e : Z) :
  (Zpos m * 2 ^ (e + 1074) < 10 ^ 21 * 2 ^ 1074)%Z -> (-1074 <= e)%Z ->
  at_least_1e21 m e = false.
Proof.
  intros H He. unfold at_least_1e21.
  assert (P : (0 < 2 ^ 1074)%Z) by (apply Z.pow_pos_nonneg; lia).
  destruct (Z.leb_spec 0 e) as [H0 | H0]; apply Z.leb_gt.
  - rewrite Z.pow_add_r in H by lia.
    remember (2 ^ e)%Z as a. remember (2 ^ 1074)%Z as b. remember (10 ^ 21)%Z as c.
    nia.
  - assert (E : (2 ^ 1074 = 2 ^ (- e) * 2 ^ (e + 1074))%Z).
    { rewrite <- Z.pow_add_r by lia. f_equal. lia. }
    assert (Q : (0 < 2 ^ (e + 1074))%Z) by (apply Z.pow_pos_nonneg; lia).
    rewrite E in H.
    remember (2 ^ (- e))%Z as a. remember (2 ^ (e + 1074))%Z as b. remember (10 ^ 21)%Z as c.
    nia.
Qed.

Lemma toFixed_two_decimals (x : number) :
  (abs x <? 1e21) = true -> two_decimals (toFixed Number_toString x 2).
Proof.
  intros H. rewrite ltb_rank, Prim2SF_1e21, number_rank_spec, abs_spec in H.
  pose proof (Prim2SF_valid x) as V. unfold toFixed.
  destruct (Prim2SF x) as [s | s | | s m e]; cbn [SFabs is_nan_spec rank cond_Zopp] in H.
  - exists "0"%string, "00"%string. split; reflexivity.
  - exfalso. apply Z.ltb_lt in H.
    change (2 ^ 2100)%Z with (2 ^ 1026 * 2 ^ 1074)%Z in H.
    assert (10 ^ 21 < 2 ^ 1026)%Z by (vm_compute; reflexivity).
    assert (0 < 2 ^ 1074)%Z by (apply Z.pow_pos_nonneg; lia).
    remember (2 ^ 1026)%Z as a. remember (2 ^ 1074)%Z as b. remember (10 ^ 21)%Z as c.
    nia.
  - discriminate H.
  - cbn [valid_binary] in V. apply bounded_inv in V as (He & _ & _).
    apply Z.ltb_lt in H. cbn [toFixed_spec]. rewrite (below_1e21 m e H) by lia.
    destruct (place_point_shape (digits (nearest_scaled m e 2)) 1) as (w & c & E & Hc).
    exists (sign_prefix s ++ w)%string, c. split; [| exact Hc].
    rewrite append_assoc. f_equal. exact E.
Qed.

End PrintedShape.

Section PrintedAmounts.

Variable Math_pow : number -> number -> number.
Variable Number_toString : number -> string.

(** X19: what the caller may parse. A result whose magnitude is below
    [10^21] is printed with a point and exactly two characters after it;
    so it is for the two ratios, for the SIP recurrence and for a compounded
    amount. *)
Theorem amounts_have_two_decimals :
  forall (d i y x r : number) (m : nat),
    ((abs (d / i * 100) <? 1e21) = true ->
     two_decimals (calculateDTI Number_toString d i)
     /\ two_decimals (safeWithdrawalRate Number_toString i y d))
    /\ ((abs (sip_recurrence x r m) <? 1e21) = true ->
        two_decimals (sipReturns Number_toString x m r))
    /\ ((abs (compound Math_pow x (1 + r) y) <? 1e21) = true ->
        two_decimals (lumpSumReturns Math_pow Number_toString x y r)).
Proof.
  intros d i y x r m. split; [| split].
  - intros H. split; apply toFixed_two_decimals, H.
  - intros H. unfold sipReturns. cbv zeta. rewrite sip_loop_recurrence.
    apply toFixed_two_decimals, H.
  - intros H. apply toFixed_two_decimals, H.
Qed.

End PrintedAmounts.

Lemma calculateDTI_of_1500_over_5000 :
  two_decimals (calculateDTI no_toString 1500 5000)
  /\ two_decimals (safeWithdrawalRate no_toString 5000 30 1500).
Proof.
  apply (proj1 (amounts_have_two_decimals pow_by_multiplication no_toString
                  1500 5000 30 0 0 0)).
  vm_compute. reflexivity.
Defined.
